(** * project-papa-client: the live-loop registry and its Ruby generator

    A shallow embedding of [src/generation/Coordinator.ts] and
    [src/generation/LiveLoop.ts].  The two classes share mutable state (the
    static [LiveLoop.coordinator], the static [LiveLoop.idCount], and the
    loop objects held by reference in the coordinator's sets), so the
    embedding threads one [World] through a small state-and-exception
    monad.  Strings are built exactly as the TypeScript builds them,
    including what JavaScript does when [undefined] meets [+]. *)

From Stdlib Require Import ZArith Ascii String.
From Stdlib Require Import Floats.PrimFloat Floats.SpecFloat Floats.FloatOps Floats.FloatAxioms.
From stdpp Require Import base option list strings pretty sorting.

Open Scope Z_scope.

(** ** JavaScript values the two classes touch *)

(** A line feed and a double quote, as one-character strings. *)
Definition nl : string := String "010"%char EmptyString.
Definition dq : string := String "034"%char EmptyString.

(** [effectNum] is a JavaScript number that only ever holds an integer or,
    after [x % 0], [NaN]. *)
Inductive JSNum : Type :=
  | Int (z : Z)
  | NaN.

(** [a + k] for an integer constant [k]. *)
Definition js_add (a : JSNum) (k : Z) : JSNum :=
  match a with
  | Int z => Int (z + k)
  | NaN => NaN
  end.

(** [a % n]: the remainder takes the sign of the dividend ([Z.rem]), and a
    zero divisor gives [NaN]. *)
Definition js_rem (a : JSNum) (n : Z) : JSNum :=
  match a with
  | Int z => if n =? 0 then NaN else Int (Z.rem z n)
  | NaN => NaN
  end.

(** [idCount++] on a double: integers are exact up to [2^53], where adding
    one rounds back to the same value. *)
Definition js_succ (z : Z) : Z :=
  if z <? 2 ^ 53 then z + 1 else z.

(** String conversion performed by [+] with a string on the left.  [None]
    stands for [undefined]. *)
Definition js_str (v : option string) : string :=
  match v with
  | Some s => s
  | None => "undefined"
  end.

Definition js_int_str (v : option Z) : string :=
  match v with
  | Some z => pretty z
  | None => "undefined"
  end.

(** [Number::toString] on a double.  The cases a volume can fall in after
    clamping are written out: both zeros print as [0], one prints as [1],
    [NaN] prints as [NaN].  The digits of any other value come from the
    host. *)
Class NumberFormat := { fraction_digits : float -> string }.

Definition Number_toString `{NumberFormat} (v : float) : string :=
  if (v =? 0)%float then "0"
  else if (v =? 1)%float then "1"
  else if is_nan v then "NaN"
  else fraction_digits v.

(** ** The directory module ([./directory], not part of these sources)

    [LiveLoop.ts] imports three functions from it; they are taken as given,
    with the types the TypeScript uses them at. *)

Definition LiveLoopName : Type := string.

(** Only [name] is read from an effect descriptor. *)
Record EffectData : Type := { name : string }.

Class Directory := {
  getRubyForLiveLoop : LiveLoopName -> string;
  getEffect : JSNum -> EffectData;
  getNumberOfEffects : Z
}.

(** ** Objects *)

(** A reference to a [LiveLoop] object: its position in the heap. *)
Abbreviation Ref := nat (only parsing).

(** Instance fields of [LiveLoop].  The declared field [name] is never
    assigned nor read and is left out.  [rawRuby] and [scopeNum] can hold
    [undefined]. *)
Record LiveLoopState : Type := mkLiveLoop {
  rawRuby : option string;
  volume : float;
  outputRuby : option string;
  id : Z;
  tag : string;
  effectNum : JSNum;
  effectData : EffectData;
  scopeNum : option Z
}.

(** Instance fields of [Coordinator].  [coordOutputRuby] is its
    [outputRuby]; [communicator] is the [SonicPiCommunicator], seen as the
    texts passed to [runCode], oldest first.  The two [Set<LiveLoop>] are
    lists without repetition in insertion order, which is the order a
    JavaScript [Set] iterates in. *)
Record CoordinatorState : Type := mkCoordinator {
  header : string;
  coordOutputRuby : option string;
  communicator : list string;
  freeScopeNums : list (option Z);
  activeLoops : list Ref;
  deadLoops : list Ref
}.

(** The whole state: the loop objects, and the two static fields of
    [LiveLoop]. *)
Record World : Type := mkWorld {
  heap : list LiveLoopState;
  idCount : Z;
  coordinator : CoordinatorState
}.

(** Field updates. *)
Definition with_volume (v : float) (l : LiveLoopState) : LiveLoopState :=
  mkLiveLoop (rawRuby l) v (outputRuby l) (id l) (tag l)
             (effectNum l) (effectData l) (scopeNum l).

Definition with_outputRuby (o : option string) (l : LiveLoopState) : LiveLoopState :=
  mkLiveLoop (rawRuby l) (volume l) o (id l) (tag l)
             (effectNum l) (effectData l) (scopeNum l).

Definition with_effect (n : JSNum) (e : EffectData) (l : LiveLoopState) : LiveLoopState :=
  mkLiveLoop (rawRuby l) (volume l) (outputRuby l) (id l) (tag l)
             n e (scopeNum l).

Definition with_coordOutputRuby (o : option string) (c : CoordinatorState) :=
  mkCoordinator (header c) o (communicator c) (freeScopeNums c)
                (activeLoops c) (deadLoops c).

Definition with_communicator (t : list string) (c : CoordinatorState) :=
  mkCoordinator (header c) (coordOutputRuby c) t (freeScopeNums c)
                (activeLoops c) (deadLoops c).

Definition with_freeScopeNums (p : list (option Z)) (c : CoordinatorState) :=
  mkCoordinator (header c) (coordOutputRuby c) (communicator c) p
                (activeLoops c) (deadLoops c).

Definition with_activeLoops (a : list Ref) (c : CoordinatorState) :=
  mkCoordinator (header c) (coordOutputRuby c) (communicator c)
                (freeScopeNums c) a (deadLoops c).

Definition with_deadLoops (d : list Ref) (c : CoordinatorState) :=
  mkCoordinator (header c) (coordOutputRuby c) (communicator c)
                (freeScopeNums c) (activeLoops c) d.

Definition with_coordinator (c : CoordinatorState) (w : World) : World :=
  mkWorld (heap w) (idCount w) c.

Definition with_heap (h : list LiveLoopState) (w : World) : World :=
  mkWorld h (idCount w) (coordinator w).

Definition with_idCount (n : Z) (w : World) : World :=
  mkWorld (heap w) n (coordinator w).

(** [Set.prototype.add] and [Set.prototype.delete]. *)
Definition set_add (r : Ref) (s : list Ref) : list Ref :=
  if decide (r ∈ s) then s else s ++ [r].

Definition set_delete (r : Ref) (s : list Ref) : list Ref :=
  filter (λ x, x ≠ r) s.

(** ** Computations: state plus exceptions

    A thrown exception leaves the state as it was when it was thrown. *)

Inductive JsError : Type :=
  | Error (msg : string)
  | TypeError.

Inductive Completion (A : Type) : Type :=
  | Normal (a : A)
  | Throw (e : JsError).
Arguments Normal {A} a.
Arguments Throw {A} e.

Definition Js (A : Type) : Type := World -> Completion A * World.

Definition ret {A} (a : A) : Js A := λ w, (Normal a, w).

Definition bind {A B} (m : Js A) (k : A -> Js B) : Js B :=
  λ w, match m w with
       | (Normal a, w') => k a w'
       | (Throw e, w') => (Throw e, w')
       end.

Definition throw {A} (e : JsError) : Js A := λ w, (Throw e, w).

Definition gets {A} (f : World -> A) : Js A := λ w, (Normal (f w), w).

Definition modify (f : World -> World) : Js unit := λ w, (Normal tt, f w).

Declare Scope js_scope.
Delimit Scope js_scope with js.
Notation "x '<-' m ';;' k" := (bind m (λ x, k))
  (at level 100, m at next level, right associativity) : js_scope.
Notation "m ';;' k" := (bind m (λ _, k))
  (at level 100, right associativity) : js_scope.
Open Scope js_scope.

(** [for (const x of xs) body]. *)
Fixpoint for_of {A} (xs : list A) (body : A -> Js unit) : Js unit :=
  match xs with
  | [] => ret tt
  | x :: xs' => body x ;; for_of xs' body
  end.

(** Reading through a reference; a reference to nothing behaves as a
    property access on [undefined]. *)
Definition deref (r : Ref) : Js LiveLoopState :=
  λ w, match heap w !! r with
       | Some l => (Normal l, w)
       | None => (Throw TypeError, w)
       end.

Definition update (r : Ref) (f : LiveLoopState -> LiveLoopState) : Js unit :=
  l <- deref r ;;
  modify (λ w, with_heap (<[r := f l]> (heap w)) w).

(** [new] of an object: it goes at the end of the heap. *)
Definition alloc (l : LiveLoopState) : Js Ref :=
  λ w, (Normal (length (heap w)), with_heap (heap w ++ [l]) w).

Definition modify_coordinator (f : CoordinatorState -> CoordinatorState) : Js unit :=
  modify (λ w, with_coordinator (f (coordinator w)) w).

(** ** Coordinator.ts *)

Module Coordinator.

Definition GLOBAL_OSCILLOSCOPE_INDEX : Z := 1.

(** The header text, line by line as in the template literal. *)
Definition header_text : string :=
  String.concat nl
    [ "use_bpm 100";
      EmptyString;
      "    live_loop :metronome_2 do";
      "      sleep 2";
      "    end";
      EmptyString;
      "    live_loop :metronome_4 do";
      "      sync :metronome_2";
      "      with_fx :level, amp: 0.5 do";
      "        use_synth :chipbass";
      "        play 110, amp: 5, release: 0.02";
      "        sleep 1";
      "        play 90, release: 0.01";
      "        sleep 1";
      "        play 90, release: 0.01";
      "        sleep 1";
      "        play 90, release: 0.01";
      "        sleep 1";
      "      end";
      "    end";
      EmptyString;
      "    live_loop :metronome_8 do";
      "      sync :metronome_4";
      "      sleep 8";
      "    end" ].

(** [for (let i = 2; i < 128; i++) this.freeScopeNums.push(i)]. *)
Definition initial_scopes : list (option Z) :=
  (λ i : nat, Some (Z.of_nat i)) <$> seq 2 126.

(** The constructor. *)
Definition new : CoordinatorState :=
  {| header := header_text;
     coordOutputRuby := None;
     communicator := [];
     freeScopeNums := initial_scopes;
     activeLoops := [];
     deadLoops := [] |}.

(** [Array.prototype.shift]: the first element, or [undefined] when
    there is none.  Nothing is thrown. *)
Definition getFreeScope : Js (option Z) :=
  pool <- gets (λ w, freeScopeNums (coordinator w)) ;;
  match pool with
  | [] => ret None
  | c :: rest => modify_coordinator (with_freeScopeNums rest) ;; ret c
  end.

(** The template literal that wraps the program in global scope 1. *)
Definition global_scope (body : string) : string :=
  nl +:+ "      with_fx " +:+ dq +:+ "sonic-pi-fx_scope_out" +:+ dq
     +:+ ", scope_num: " +:+ pretty GLOBAL_OSCILLOSCOPE_INDEX +:+ " do" +:+ nl
     +:+ "        " +:+ body +:+ nl
     +:+ "      end" +:+ nl
     +:+ "    ".

Definition stop_block (t : string) : string :=
  "live_loop :" +:+ t +:+ " do" +:+ nl +:+ "  stop" +:+ nl +:+ "end" +:+ nl.

Definition get_outputRuby : Js string :=
  gets (λ w, js_str (coordOutputRuby (coordinator w))).

Definition set_outputRuby (s : string) : Js unit :=
  modify_coordinator (with_coordOutputRuby (Some s)).

Definition runCode (code : string) : Js unit :=
  modify_coordinator (λ c, with_communicator (communicator c ++ [code]) c).

(** The getters [getRuby], [getTag] and [getScopeNum] of a loop are the
    fields [outputRuby], [tag] and [scopeNum] of the object read through
    the reference.  The two [console.log] calls are left out. *)
Definition generateRuby : Js unit :=
  hdr <- gets (λ w, header (coordinator w)) ;;
  set_outputRuby (hdr +:+ nl) ;;
  active <- gets (λ w, activeLoops (coordinator w)) ;;
  for_of active (λ r,
    out <- get_outputRuby ;;
    loop <- deref r ;;
    set_outputRuby ((out +:+ js_str (outputRuby loop)) +:+ nl)) ;;
  out <- get_outputRuby ;;
  set_outputRuby (global_scope out) ;;
  dead <- gets (λ w, deadLoops (coordinator w)) ;;
  (if decide (length dead ≠ 0%nat) then
     for_of dead (λ r,
       out <- get_outputRuby ;;
       loop <- deref r ;;
       set_outputRuby (out +:+ stop_block (tag loop))) ;;
     modify_coordinator (with_deadLoops [])
   else ret tt) ;;
  out <- get_outputRuby ;;
  runCode out.

Definition addLoopToSet (l : Ref) : Js unit :=
  modify_coordinator (λ c, with_activeLoops (set_add l (activeLoops c)) c) ;;
  generateRuby.

Definition removeLoopFromSet (l : Ref) : Js unit :=
  active <- gets (λ w, activeLoops (coordinator w)) ;;
  if decide (l ∈ active) then
    modify_coordinator (λ c, with_activeLoops (set_delete l (activeLoops c)) c) ;;
    modify_coordinator (λ c, with_deadLoops (set_add l (deadLoops c)) c) ;;
    loop <- deref l ;;
    modify_coordinator (λ c, with_freeScopeNums (freeScopeNums c ++ [scopeNum loop]) c) ;;
    generateRuby
  else
    loop <- deref l ;;
    throw (Error ("Loop tag " +:+ tag loop +:+ " not present.")).

(** [getRuby]: the text kept by the last [generateRuby], [undefined]
    before the first one. *)
Definition getRuby : Js (option string) :=
  gets (λ w, coordOutputRuby (coordinator w)).

End Coordinator.

(** ** LiveLoop.ts *)

Module LiveLoop.
Section WithDirectory.
Context `{Directory} `{NumberFormat}.

Definition numOfEffects : Z := getNumberOfEffects.

(** The text [generateRuby] leaves in [outputRuby], from the fields. *)
Definition ruby_of (l : LiveLoopState) : string :=
  let out := js_str (rawRuby l) in
  let out := "with_fx :" +:+ name (effectData l)
               +:+ " do" +:+ nl +:+ out +:+ nl +:+ "end" +:+ nl in
  let out := "with_fx :level, amp: " +:+ Number_toString (volume l)
               +:+ " do" +:+ nl +:+ out +:+ nl +:+ "end" +:+ nl in
  let out := "with_fx " +:+ dq +:+ "sonic-pi-fx_scope_out" +:+ dq +:+ ", scope_num: "
               +:+ js_int_str (scopeNum l) +:+ " do" +:+ nl +:+ out +:+ nl +:+ "end" +:+ nl in
  "live_loop :" +:+ tag l +:+ " do" +:+ nl +:+ out +:+ nl +:+ "end".

Definition generateRuby (this : Ref) : Js unit :=
  update this (λ l, with_outputRuby (Some (ruby_of l)) l).

Definition generateAndPushRuby (this : Ref) : Js unit :=
  generateRuby this ;;
  Coordinator.generateRuby.

(** The constructor.  The looked-up Ruby goes to a local constant; the
    field [rawRuby] is not assigned. *)
Definition new (name : LiveLoopName) : Js Ref :=
  scope <- Coordinator.getFreeScope ;;
  let rawRuby_local := getRubyForLiveLoop name in
  n <- gets idCount ;;
  modify (with_idCount (js_succ n)) ;;
  this <- alloc {| rawRuby := None;
                   volume := 1%float;
                   outputRuby := None;
                   id := n;
                   tag := "loop_" +:+ pretty n +:+ "_" +:+ name;
                   effectNum := Int 0;
                   effectData := getEffect (Int 0);
                   scopeNum := scope |} ;;
  generateRuby this ;;
  Coordinator.addLoopToSet this ;;
  ret this.

Definition clamp (v : float) : float :=
  if (v <? 0)%float then 0%float
  else if (1 <? v)%float then 1%float
  else v.

Definition setVolume (this : Ref) (v : float) : Js unit :=
  update this (with_volume (clamp v)).

Definition nextEffect (this : Ref) : Js unit :=
  update this (λ l,
    let n := js_rem (js_add (effectNum l) 1) numOfEffects in
    with_effect n (getEffect n) l) ;;
  generateAndPushRuby this.

Definition prevEffect (this : Ref) : Js unit :=
  update this (λ l,
    let n := js_rem (js_add (effectNum l) (-1)) numOfEffects in
    with_effect n (getEffect n) l) ;;
  generateAndPushRuby this.

Definition delete (this : Ref) : Js unit :=
  _ <- deref this ;;
  Coordinator.removeLoopFromSet this.

(** The getters. *)
Definition getTag (this : Ref) : Js string :=
  l <- deref this ;; ret (tag l).

Definition getScopeNum (this : Ref) : Js (option Z) :=
  l <- deref this ;; ret (scopeNum l).

Definition getRuby (this : Ref) : Js (option string) :=
  l <- deref this ;; ret (outputRuby l).

Definition getEffectData (this : Ref) : Js EffectData :=
  l <- deref this ;; ret (effectData l).

Definition getEffectNum (this : Ref) : Js JSNum :=
  l <- deref this ;; ret (effectNum l).

End WithDirectory.
End LiveLoop.

(** ** Callers *)

(** The state when the module [LiveLoop] has been loaded. *)
Definition fresh : World :=
  {| heap := []; idCount := 0; coordinator := Coordinator.new |}.

Inductive Op : Type :=
  | New (name : LiveLoopName)
  | Delete (l : Ref)
  | SetVolume (l : Ref) (v : float)
  | NextEffect (l : Ref)
  | PrevEffect (l : Ref).

Section Callers.
Context `{Directory} `{NumberFormat}.

Definition call (o : Op) : Js unit :=
  match o with
  | New name => LiveLoop.new name ;; ret tt
  | Delete l => LiveLoop.delete l
  | SetVolume l v => LiveLoop.setVolume l v
  | NextEffect l => LiveLoop.nextEffect l
  | PrevEffect l => LiveLoop.prevEffect l
  end.

(** A caller that makes the calls one after the other and carries on
    after an exception. *)
Fixpoint run (ops : list Op) (w : World) : World :=
  match ops with
  | [] => w
  | o :: ops' => run ops' (call o w).2
  end.

End Callers.

(** A small directory and number format to run the code on. *)
Definition demo_effects : list EffectData :=
  [ {| name := "reverb" |}; {| name := "echo" |}; {| name := "distortion" |} ].

#[export] Instance demo_directory : Directory := {|
  getRubyForLiveLoop := λ n, "sample :" +:+ n;
  getEffect := λ i,
    match i with
    | Int z => if decide (0 <= z) then default {| name := "none" |} (demo_effects !! Z.to_nat z)
               else {| name := "none" |}
    | NaN => {| name := "none" |}
    end;
  getNumberOfEffects := 3
|}.

#[export] Instance demo_format : NumberFormat := {|
  fraction_digits := λ v, if (v =? 0.5)%float then "0.5" else "0.3"
|}.


(** ** Vocabulary of the statements *)

(** What [loop.getRuby()] and [loop.getTag()] give for the object at [r]. *)
Definition ruby_at (h : list LiveLoopState) (r : Ref) : string :=
  from_option (λ l, js_str (outputRuby l)) EmptyString (h !! r).

Definition tag_at (h : list LiveLoopState) (r : Ref) : string :=
  from_option tag EmptyString (h !! r).

Definition chan_at (h : list LiveLoopState) (r : Ref) : option Z :=
  h !! r ≫= scopeNum.

(** Each declaration followed by a line feed. *)
Definition join_lines (ds : list string) : string :=
  foldr (λ d acc, d +:+ nl +:+ acc) EmptyString ds.

Definition stop_blocks (ts : list string) : string :=
  foldr (λ t acc, Coordinator.stop_block t +:+ acc) EmptyString ts.

(** The shape of a program: header and declarations inside the global
    scope, stop blocks after it. *)
Definition program_text (hdr : string) (decls stopped : list string) : string :=
  Coordinator.global_scope (hdr +:+ nl +:+ join_lines decls) +:+ stop_blocks stopped.

Definition program_of (w : World) : string :=
  let c := coordinator w in
  program_text (header c)
               (ruby_at (heap w) <$> activeLoops c)
               (tag_at (heap w) <$> deadLoops c).

(** The world after the coordinator has compiled and published. *)
Definition compiled (w : World) : World :=
  let c := coordinator w in
  with_coordinator
    (mkCoordinator (header c) (Some (program_of w))
                   (communicator c ++ [program_of w])
                   (freeScopeNums c) (activeLoops c) [])
    w.

Definition valid_refs (h : list LiveLoopState) (rs : list Ref) : Prop :=
  Forall (λ r, is_Some (h !! r)) rs.

Section Effects.
Context `{Directory} `{NumberFormat}.

(** A loop whose [outputRuby] has just been regenerated. *)
Definition regenerated (l : LiveLoopState) : LiveLoopState :=
  with_outputRuby (Some (LiveLoop.ruby_of l)) l.

(** The object the constructor builds, for the name, the value of
    [idCount] and the scope number it got. *)
Definition constructed (name : LiveLoopName) (n : Z) (scope : option Z)
  : LiveLoopState :=
  regenerated
    {| rawRuby := None; volume := 1%float; outputRuby := None;
       id := n; tag := "loop_" +:+ pretty n +:+ "_" +:+ name;
       effectNum := Int 0; effectData := getEffect (Int 0);
       scopeNum := scope |}.

(** What [shift] returns. *)
Definition shifted (pool : list (option Z)) : option Z :=
  default None (head pool).

(** The world a constructor call leaves for the coordinator to compile. *)
Definition created (name : LiveLoopName) (w : World) : World :=
  let c := coordinator w in
  mkWorld
    (heap w ++ [constructed name (idCount w) (shifted (freeScopeNums c))])
    (js_succ (idCount w))
    (mkCoordinator (header c) (coordOutputRuby c) (communicator c)
                   (tail (freeScopeNums c))
                   (activeLoops c ++ [length (heap w)])
                   (deadLoops c)).

(** The world a successful [removeLoopFromSet] leaves to compile. *)
Definition removed (r : Ref) (l : LiveLoopState) (w : World) : World :=
  let c := coordinator w in
  with_coordinator
    (mkCoordinator (header c) (coordOutputRuby c) (communicator c)
                   (freeScopeNums c ++ [scopeNum l])
                   (set_delete r (activeLoops c))
                   (set_add r (deadLoops c)))
    w.

(** The loop after its effect index has moved by [k]. *)
Definition moved (k : Z) (l : LiveLoopState) : LiveLoopState :=
  let n := js_rem (js_add (effectNum l) k) LiveLoop.numOfEffects in
  regenerated (with_effect n (getEffect n) l).

Definition stored (r : Ref) (l : LiveLoopState) (w : World) : World :=
  with_heap (<[r := l]> (heap w)) w.

(** The state changes a single call can make. *)
Inductive transition (w : World) : World -> Prop :=
  | t_unchanged : transition w w
  | t_new name : transition w (compiled (created name w))
  | t_delete r l :
      heap w !! r = Some l ->
      r ∈ activeLoops (coordinator w) ->
      transition w (compiled (removed r l w))
  | t_volume r l v :
      heap w !! r = Some l ->
      transition w (stored r (with_volume (LiveLoop.clamp v) l) w)
  | t_effect r l k :
      heap w !! r = Some l ->
      transition w (compiled (stored r (moved k l) w)).

End Effects.

(** Between calls: every loop in a set is an object, no loop is twice in
    the active set, and nothing waits for its stop block. *)
Definition well_formed (w : World) : Prop :=
  valid_refs (heap w) (activeLoops (coordinator w))
  ∧ NoDup (activeLoops (coordinator w))
  ∧ deadLoops (coordinator w) = [].

(** The nesting of a loop's declaration, outermost first: the named
    [live_loop], the loop's scope, its volume, its effect, its body. *)
Definition effect_wrap (effect body : string) : string :=
  "with_fx :" +:+ effect +:+ " do" +:+ nl +:+ body +:+ nl +:+ "end" +:+ nl.

Definition volume_wrap (amp body : string) : string :=
  "with_fx :level, amp: " +:+ amp +:+ " do" +:+ nl +:+ body +:+ nl +:+ "end" +:+ nl.

Definition scope_wrap (scope body : string) : string :=
  "with_fx " +:+ dq +:+ "sonic-pi-fx_scope_out" +:+ dq +:+ ", scope_num: " +:+ scope
    +:+ " do" +:+ nl +:+ body +:+ nl +:+ "end" +:+ nl.

Definition declaration (tag scope amp effect body : string) : string :=
  "live_loop :" +:+ tag +:+ " do" +:+ nl
    +:+ scope_wrap scope (volume_wrap amp (effect_wrap effect body))
    +:+ nl +:+ "end".

(** ** The text of a program, written out *)

(** The header a coordinator is to send, written out. *)
Definition expected_header : string :=
  "use_bpm 100" +:+ nl +:+
  nl +:+
  "    live_loop :metronome_2 do" +:+ nl +:+
  "      sleep 2" +:+ nl +:+
  "    end" +:+ nl +:+
  nl +:+
  "    live_loop :metronome_4 do" +:+ nl +:+
  "      sync :metronome_2" +:+ nl +:+
  "      with_fx :level, amp: 0.5 do" +:+ nl +:+
  "        use_synth :chipbass" +:+ nl +:+
  "        play 110, amp: 5, release: 0.02" +:+ nl +:+
  "        sleep 1" +:+ nl +:+
  "        play 90, release: 0.01" +:+ nl +:+
  "        sleep 1" +:+ nl +:+
  "        play 90, release: 0.01" +:+ nl +:+
  "        sleep 1" +:+ nl +:+
  "        play 90, release: 0.01" +:+ nl +:+
  "        sleep 1" +:+ nl +:+
  "      end" +:+ nl +:+
  "    end" +:+ nl +:+
  nl +:+
  "    live_loop :metronome_8 do" +:+ nl +:+
  "      sync :metronome_4" +:+ nl +:+
  "      sleep 8" +:+ nl +:+
  "    end".

(** The one wrapper of a program: the effect that reports to scope 1. *)
Definition global_wrapper (body : string) : string :=
  nl +:+ "      with_fx " +:+ dq +:+ "sonic-pi-fx_scope_out" +:+ dq
     +:+ ", scope_num: 1 do" +:+ nl
     +:+ "        " +:+ body +:+ nl
     +:+ "      end" +:+ nl
     +:+ "    ".

(** The block that stops the loop of a tag. *)
Definition stop_directive (t : string) : string :=
  "live_loop :" +:+ t +:+ " do" +:+ nl +:+ "  stop" +:+ nl +:+ "end" +:+ nl.

(** A program: header and declarations, each on a line, inside the one
    wrapper, then one stop block per tag. *)
Definition expected_program (hdr : string) (decls tags : list string) : string :=
  global_wrapper (hdr +:+ nl +:+ join_lines decls)
    +:+ foldr (λ t acc, stop_directive t +:+ acc) EmptyString tags.

(** One published program, read back: the loops it declares, each with
    the text the program carries for it, and the loops it stops. *)
Abbreviation Published := (list (Ref * string) * list Ref)%type (only parsing).

(** The text of a program that is read so. *)
Definition text_of (h : list LiveLoopState) (p : Published) : string :=
  expected_program expected_header p.1.*2 (tag_at h <$> p.2).

(** The loops of [rs], each with the text it caches. *)
Definition cached (h : list LiveLoopState) (rs : list Ref) : list (Ref * string) :=
  (λ r, (r, ruby_at h r)) <$> rs.

Section Reading.
Context `{Directory} `{NumberFormat}.

(** The text [d] is the declaration of the loop at [r]: its tag and its
    scope number, a volume, an effect of the directory, and the body that
    was never stored. *)
Definition declares (h : list LiveLoopState) (r : Ref) (d : string) : Prop :=
  ∃ (v : float) (n : JSNum),
    d = declaration (tag_at h r) (js_int_str (chan_at h r))
                    (Number_toString v) (name (getEffect n)) "undefined".

(** A reading of one program is sound: the loops it declares are objects
    and all different, each of its texts is the declaration of its loop,
    and the loops it stops are objects. *)
Definition reads (h : list LiveLoopState) (p : Published) : Prop :=
  valid_refs h p.1.*1
  ∧ NoDup p.1.*1
  ∧ Forall (λ d, declares h d.1 d.2) p.1
  ∧ valid_refs h p.2.

(** The programs sent so far, read back, oldest first: their texts are
    the programs sent; each reading is sound; each loop that is an object
    and not active is stopped by exactly one program, and no other loop is
    stopped; no program declares a loop that it or an earlier program
    stops; and the last program declares exactly the loops now active,
    each with the text it now caches. *)
Definition explains (w : World) (progs : list Published) : Prop :=
  communicator (coordinator w) = text_of (heap w) <$> progs
  ∧ Forall (reads (heap w)) progs
  ∧ NoDup (concat (snd <$> progs))
  ∧ (∀ r, r ∈ concat (snd <$> progs)
          ↔ is_Some (heap w !! r) ∧ r ∉ activeLoops (coordinator w))
  ∧ (∀ i j p q r, progs !! i = Some p -> progs !! j = Some q -> (i ≤ j)%nat ->
                  r ∈ p.2 -> r ∉ q.1.*1)
  ∧ from_option fst [] (last progs)
    = cached (heap w) (activeLoops (coordinator w)).

(** Every loop caches its own declaration: its tag, its scope number, its
    effect, the volume it had when the text was last regenerated, and the
    body that was never stored. *)
Definition self_declared (w : World) : Prop :=
  ∀ r l, heap w !! r = Some l ->
    rawRuby l = None
    ∧ effectData l = getEffect (effectNum l)
    ∧ ∃ v, outputRuby l
           = Some (declaration (tag l) (js_int_str (scopeNum l))
                               (Number_toString v) (name (effectData l))
                               "undefined").

(** What holds of the programs after any run of calls. *)
Definition published_right (w : World) : Prop :=
  header (coordinator w) = expected_header
  ∧ self_declared w
  ∧ ∃ progs, explains w progs.

End Reading.

(** ** Scope numbers, ids and values *)

(** What the claim on channels asks of a world: every active loop holds a
    number within 2..127 that is not free and that no other active loop
    holds. *)
Definition channels_claim (w : World) : Prop :=
  ∀ r, r ∈ activeLoops (coordinator w) ->
    ∃ c, chan_at (heap w) r = Some c
         ∧ (2 <= c <= 127)
         ∧ (Some c ∉ freeScopeNums (coordinator w))
         ∧ (∀ r', r' ∈ activeLoops (coordinator w) ->
                  chan_at (heap w) r' = Some c -> r' = r).

(** The scope numbers the constructor of [Coordinator] pushes. *)
Definition all_scopes : list Z := Z.of_nat <$> seq 2 126.

(** The numbers among values that may be [undefined]. *)
Definition numbers (vs : list (option Z)) : list Z := omap (λ v, v) vs.

(** Every scope number is either free or held by an active loop, once. *)
Definition channels_accounted (w : World) : Prop :=
  numbers (freeScopeNums (coordinator w))
    ++ omap (chan_at (heap w)) (activeLoops (coordinator w))
  ≡ₚ all_scopes.

(** The heap [h'] has every object of [h], with the same fields among
    those declared [readonly]. *)
Definition keeps_readonly (h h' : list LiveLoopState) : Prop :=
  ∀ r l, h !! r = Some l ->
    ∃ l', h' !! r = Some l' ∧ tag l' = tag l ∧ id l' = id l
          ∧ scopeNum l' = scopeNum l ∧ rawRuby l' = rawRuby l.

(** A scope number a loop or the free list may hold: [undefined], or a
    number of the initial range. *)
Definition scope_value (v : option Z) : Prop :=
  match v with
  | Some c => 2 <= c <= 127
  | None => True
  end.

(** A volume a loop may hold. *)
Definition volume_value (v : float) : Prop :=
  is_nan v = true ∨ ((0 <=? v)%float = true ∧ (v <=? 1)%float = true).

(** A string without the character [_]. *)
Fixpoint no_underscore (s : string) : Prop :=
  match s with
  | EmptyString => True
  | String c s' => c ≠ "_"%char ∧ no_underscore s'
  end.

(** [idCount] and the ids and tags of the loops count the constructions. *)
Definition ids_counted (w : World) : Prop :=
  idCount w = Z.min (Z.of_nat (length (heap w))) (2 ^ 53)
  ∧ ∀ r l, heap w !! r = Some l ->
      id l = Z.min (Z.of_nat r) (2 ^ 53)
      ∧ ∃ name, tag l = "loop_" +:+ pretty (id l) +:+ "_" +:+ name.

Definition scopes_in_range (w : World) : Prop :=
  Forall scope_value (freeScopeNums (coordinator w))
  ∧ ∀ r l, heap w !! r = Some l -> scope_value (scopeNum l).

(** The names given to the constructor, in the order of the calls. *)
Definition names_of (ops : list Op) : list LiveLoopName :=
  omap (λ o, match o with New name => Some name | _ => None end) ops.

(** [idCount], the ids and the tags count the constructions, and each tag
    ends in the name its loop was constructed with. *)
Definition ids_named (names : list LiveLoopName) (w : World) : Prop :=
  idCount w = Z.min (Z.of_nat (length (heap w))) (2 ^ 53)
  ∧ length (heap w) = length names
  ∧ ∀ r l, heap w !! r = Some l ->
      id l = Z.min (Z.of_nat r) (2 ^ 53)
      ∧ ∃ name, names !! r = Some name
                ∧ tag l = "loop_" +:+ pretty (id l) +:+ "_" +:+ name.

(** ** Strings *)

Lemma append_assoc (a b c : string) : (a +:+ b) +:+ c = a +:+ (b +:+ c).
Proof.
  induction a as [|x a IH]; [done |].
  change (String x ((a +:+ b) +:+ c) = String x (a +:+ b +:+ c)).
  by f_equal.
Qed.

Lemma append_empty_r (a : string) : a +:+ EmptyString = a.
Proof.
  induction a as [|x a IH]; [done |].
  change (String x (a +:+ EmptyString) = String x a).
  by f_equal.
Qed.

Lemma foldl_join_lines (f : Ref -> string) (rs : list Ref) (out : string) :
  foldl (λ acc r, (acc +:+ f r) +:+ nl) out rs = out +:+ join_lines (f <$> rs).
Proof.
  revert out. induction rs as [|r rs IH]; intros out; simpl.
  - by rewrite append_empty_r.
  - rewrite IH. by rewrite !append_assoc.
Qed.

Lemma foldl_stop_blocks (f : Ref -> string) (rs : list Ref) (out : string) :
  foldl (λ acc r, acc +:+ Coordinator.stop_block (f r)) out rs
  = out +:+ stop_blocks (f <$> rs).
Proof.
  revert out. induction rs as [|r rs IH]; intros out; simpl.
  - by rewrite append_empty_r.
  - rewrite IH. by rewrite !append_assoc.
Qed.

(** ** The coordinator's loops over its sets *)

Lemma for_of_accumulate (g : string -> LiveLoopState -> string) (rs : list Ref) :
  ∀ (w : World) (out : string),
    valid_refs (heap w) rs ->
    coordOutputRuby (coordinator w) = Some out ->
    for_of rs (λ r, out <- Coordinator.get_outputRuby ;;
                    loop <- deref r ;;
                    Coordinator.set_outputRuby (g out loop)) w
    = (Normal tt,
       with_coordinator
         (with_coordOutputRuby
            (Some (foldl (λ acc r, from_option (g acc) acc (heap w !! r)) out rs))
            (coordinator w)) w).
Proof.
  induction rs as [|r rs IH]; intros w out Hv Hout.
  - destruct w as [h n c]; destruct c; simpl in *; subst; reflexivity.
  - apply Forall_cons in Hv as [[l Hl] Hv].
    cbn [for_of]. unfold bind at 1.
    unfold bind, Coordinator.get_outputRuby, gets, deref,
      Coordinator.set_outputRuby, modify_coordinator, modify.
    rewrite Hl, Hout. cbn [js_str].
    erewrite IH; [| exact Hv | reflexivity].
    cbn. rewrite Hl. reflexivity.
Qed.

(** Projections and field updates, for [cbn]. *)
Ltac fields :=
  unfold with_coordinator, with_heap, with_idCount, with_coordOutputRuby,
    with_communicator, with_freeScopeNums, with_activeLoops, with_deadLoops in *;
  cbn [heap idCount coordinator header coordOutputRuby communicator
       freeScopeNums activeLoops deadLoops fst snd js_str] in *.

(** The same for the fields of a loop, in the goal only. *)
Ltac all_fields :=
  unfold with_volume, with_outputRuby, with_effect, with_coordOutputRuby,
    with_communicator, with_freeScopeNums, with_activeLoops, with_deadLoops,
    with_coordinator, with_heap, with_idCount;
  cbn [rawRuby volume outputRuby id tag effectNum effectData scopeNum
       header coordOutputRuby communicator freeScopeNums activeLoops deadLoops
       heap idCount coordinator].

(** ** Laws of the computations *)

Lemma bind_ret {A B} (a : A) (k : A -> Js B) (w : World) :
  bind (ret a) k w = k a w.
Proof. reflexivity. Qed.

Lemma bind_gets {A B} (f : World -> A) (k : A -> Js B) (w : World) :
  bind (gets f) k w = k (f w) w.
Proof. reflexivity. Qed.

Lemma bind_modify {B} (f : World -> World) (k : unit -> Js B) (w : World) :
  bind (modify f) k w = k tt (f w).
Proof. reflexivity. Qed.

Lemma bind_modify_coordinator {B} f (k : unit -> Js B) (w : World) :
  bind (modify_coordinator f) k w = k tt (with_coordinator (f (coordinator w)) w).
Proof. reflexivity. Qed.

Lemma bind_get_outputRuby {B} (k : string -> Js B) (w : World) :
  bind Coordinator.get_outputRuby k w = k (js_str (coordOutputRuby (coordinator w))) w.
Proof. reflexivity. Qed.

Lemma bind_set_outputRuby {B} (s : string) (k : unit -> Js B) (w : World) :
  bind (Coordinator.set_outputRuby s) k w
  = k tt (with_coordinator (with_coordOutputRuby (Some s) (coordinator w)) w).
Proof. reflexivity. Qed.

Lemma bind_assoc {A B C} (m : Js A) (k : A -> Js B) (k' : B -> Js C) (w : World) :
  bind (bind m k) k' w = bind m (λ a, bind (k a) k') w.
Proof. unfold bind. by destruct (m w) as [[a | e] w']. Qed.

Lemma bind_normal {A B} (m : Js A) (k : A -> Js B) (w w' : World) (a : A) :
  m w = (Normal a, w') -> bind m k w = k a w'.
Proof. intros E. unfold bind. by rewrite E. Qed.

Lemma bind_throw {A B} (m : Js A) (k : A -> Js B) (w w' : World) (e : JsError) :
  m w = (Throw e, w') -> bind m k w = (Throw e, w').
Proof. intros E. unfold bind. by rewrite E. Qed.

Lemma deref_some (r : Ref) (w : World) (l : LiveLoopState) :
  heap w !! r = Some l -> deref r w = (Normal l, w).
Proof. intros E. unfold deref. by rewrite E. Qed.

Lemma deref_none (r : Ref) (w : World) :
  heap w !! r = None -> deref r w = (Throw TypeError, w).
Proof. intros E. unfold deref. by rewrite E. Qed.

Ltac js_simpl :=
  repeat first
    [ rewrite bind_assoc | rewrite bind_ret | rewrite bind_gets | rewrite bind_modify
    | rewrite bind_modify_coordinator | rewrite bind_get_outputRuby
    | rewrite bind_set_outputRuby ];
  fields.

Lemma foldl_valid (g : string -> LiveLoopState -> string)
      (f : string -> Ref -> string) (h : list LiveLoopState) (rs : list Ref) :
  valid_refs h rs ->
  (∀ acc r l, h !! r = Some l -> g acc l = f acc r) ->
  ∀ out, foldl (λ acc r, from_option (g acc) acc (h !! r)) out rs = foldl f out rs.
Proof.
  intros Hv Hg. induction Hv as [|r rs [l Hl] _ IH]; intros out; [done |].
  cbn [foldl]. rewrite Hl. cbn [from_option]. rewrite (Hg _ _ _ Hl). apply IH.
Qed.

Lemma generateRuby_compiled (w : World) :
  valid_refs (heap w) (activeLoops (coordinator w)) ->
  valid_refs (heap w) (deadLoops (coordinator w)) ->
  Coordinator.generateRuby w = (Normal tt, compiled w).
Proof.
  intros Ha Hd. destruct w as [h n [hdr o t p a d]]. fields.
  unfold Coordinator.generateRuby, compiled, program_of, program_text. fields.
  js_simpl.
  erewrite bind_normal; [| apply for_of_accumulate; [exact Ha | reflexivity]].
  js_simpl.
  rewrite (foldl_valid _ (λ acc r, (acc +:+ ruby_at h r) +:+ nl) h a Ha)
    by (intros acc r l Hl; unfold ruby_at; by rewrite Hl).
  rewrite foldl_join_lines, append_assoc.
  destruct (decide (length d ≠ 0%nat)) as [Hne | Hz].
  - erewrite bind_normal;
      [| erewrite bind_normal; [| apply for_of_accumulate; [exact Hd | reflexivity]];
         reflexivity ].
    js_simpl.
    rewrite (foldl_valid _ (λ acc r, acc +:+ Coordinator.stop_block (tag_at h r)) h d Hd)
      by (intros acc r l Hl; unfold tag_at; by rewrite Hl).
    rewrite foldl_stop_blocks. reflexivity.
  - destruct d as [|r d]; [| by destruct Hz]. js_simpl. cbn [fmap list_fmap stop_blocks foldr].
    rewrite append_empty_r. reflexivity.
Qed.

(** ** What each method does *)

Section Methods.
Context `{Directory} `{NumberFormat}.

Lemma update_some (r : Ref) f (w : World) (l : LiveLoopState) :
  heap w !! r = Some l ->
  update r f w = (Normal tt, stored r (f l) w).
Proof. intros E. unfold update. erewrite bind_normal by by apply deref_some. done. Qed.

Lemma update_none (r : Ref) f (w : World) :
  heap w !! r = None -> update r f w = (Throw TypeError, w).
Proof. intros E. unfold update. erewrite bind_throw by by apply deref_none. done. Qed.

Lemma stored_lookup (r : Ref) (l l' : LiveLoopState) (w : World) :
  heap w !! r = Some l -> heap (stored r l' w) !! r = Some l'.
Proof.
  intros E. unfold stored. fields. apply list_lookup_insert_eq.
  by eapply lookup_lt_Some.
Qed.

Lemma stored_stored (r : Ref) (l l' : LiveLoopState) (w : World) :
  stored r l' (stored r l w) = stored r l' w.
Proof. unfold stored. fields. by rewrite list_insert_insert_eq. Qed.

Lemma valid_refs_insert (h : list LiveLoopState) (r : Ref) (l : LiveLoopState) rs :
  valid_refs h rs -> valid_refs (<[r := l]> h) rs.
Proof.
  intros Hv. eapply Forall_impl; [exact Hv |].
  intros x [y Hy]. apply lookup_lt_is_Some.
  rewrite length_insert. by eapply lookup_lt_Some.
Qed.

Lemma valid_refs_app (h : list LiveLoopState) (l : LiveLoopState) rs :
  valid_refs h rs -> valid_refs (h ++ [l]) rs.
Proof.
  intros Hv. eapply Forall_impl; [exact Hv |].
  intros x [y Hy]. exists y. by apply lookup_app_l_Some.
Qed.

Lemma setVolume_some (r : Ref) (v : float) (w : World) (l : LiveLoopState) :
  heap w !! r = Some l ->
  LiveLoop.setVolume r v w
  = (Normal tt, stored r (with_volume (LiveLoop.clamp v) l) w).
Proof. apply update_some. Qed.

Lemma generateRuby_some (r : Ref) (w : World) (l : LiveLoopState) :
  heap w !! r = Some l ->
  LiveLoop.generateRuby r w = (Normal tt, stored r (regenerated l) w).
Proof. apply update_some. Qed.

Lemma generateAndPushRuby_some (r : Ref) (w : World) (l : LiveLoopState) :
  heap w !! r = Some l ->
  valid_refs (heap w) (activeLoops (coordinator w)) ->
  valid_refs (heap w) (deadLoops (coordinator w)) ->
  LiveLoop.generateAndPushRuby r w
  = (Normal tt, compiled (stored r (regenerated l) w)).
Proof.
  intros E Ha Hd. unfold LiveLoop.generateAndPushRuby.
  erewrite bind_normal by by apply generateRuby_some.
  apply generateRuby_compiled; unfold stored; fields; by apply valid_refs_insert.
Qed.

Lemma move_effect_some (k : Z) (r : Ref) (w : World) (l : LiveLoopState) :
  heap w !! r = Some l ->
  valid_refs (heap w) (activeLoops (coordinator w)) ->
  valid_refs (heap w) (deadLoops (coordinator w)) ->
  (update r (λ l, let n := js_rem (js_add (effectNum l) k) LiveLoop.numOfEffects in
                  with_effect n (getEffect n) l) ;;
   LiveLoop.generateAndPushRuby r) w
  = (Normal tt, compiled (stored r (moved k l) w)).
Proof.
  intros E Ha Hd.
  erewrite bind_normal by by apply update_some.
  erewrite generateAndPushRuby_some;
    [| by eapply stored_lookup
     | unfold stored; fields; by apply valid_refs_insert
     | unfold stored; fields; by apply valid_refs_insert ].
  by rewrite stored_stored.
Qed.

Lemma nextEffect_some (r : Ref) (w : World) (l : LiveLoopState) :
  heap w !! r = Some l ->
  valid_refs (heap w) (activeLoops (coordinator w)) ->
  valid_refs (heap w) (deadLoops (coordinator w)) ->
  LiveLoop.nextEffect r w = (Normal tt, compiled (stored r (moved 1 l) w)).
Proof. apply move_effect_some. Qed.

Lemma prevEffect_some (r : Ref) (w : World) (l : LiveLoopState) :
  heap w !! r = Some l ->
  valid_refs (heap w) (activeLoops (coordinator w)) ->
  valid_refs (heap w) (deadLoops (coordinator w)) ->
  LiveLoop.prevEffect r w = (Normal tt, compiled (stored r (moved (-1) l) w)).
Proof. apply move_effect_some. Qed.

Lemma getFreeScope_shift (w : World) :
  Coordinator.getFreeScope w
  = (Normal (shifted (freeScopeNums (coordinator w))),
     with_coordinator
       (with_freeScopeNums (tail (freeScopeNums (coordinator w))) (coordinator w)) w).
Proof. by destruct w as [h n [hdr o t [|c p] a d]]. Qed.

Lemma set_add_fresh (r : Ref) (s : list Ref) : r ∉ s -> set_add r s = s ++ [r].
Proof. intros Hr. unfold set_add. by rewrite decide_False. Qed.

Lemma valid_refs_lt (h : list LiveLoopState) (rs : list Ref) (r : Ref) :
  valid_refs h rs -> r ∈ rs -> (r < length h)%nat.
Proof.
  intros Hv Hr. eapply Forall_forall in Hv; [| exact Hr].
  by apply lookup_lt_is_Some.
Qed.

Lemma insert_last (h : list LiveLoopState) (l l' : LiveLoopState) :
  <[length h := l']> (h ++ [l]) = h ++ [l'].
Proof. rewrite insert_app_r_alt by lia. by rewrite Nat.sub_diag. Qed.

Lemma new_created (name : LiveLoopName) (w : World) :
  valid_refs (heap w) (activeLoops (coordinator w)) ->
  valid_refs (heap w) (deadLoops (coordinator w)) ->
  LiveLoop.new name w = (Normal (length (heap w)), compiled (created name w)).
Proof.
  intros Ha Hd. unfold LiveLoop.new.
  erewrite bind_normal by apply getFreeScope_shift.
  js_simpl. unfold bind at 1, alloc at 1. fields.
  erewrite bind_normal;
    [| apply generateRuby_some; unfold stored; fields; apply list_lookup_middle; done ].
  unfold Coordinator.addLoopToSet, stored. js_simpl.
  assert (Hfresh : length (heap w) ∉ activeLoops (coordinator w)).
  { intros Hin. pose proof (valid_refs_lt _ _ _ Ha Hin). lia. }
  rewrite (set_add_fresh _ _ Hfresh).
  rewrite insert_last.
  erewrite bind_normal; [reflexivity |].
  apply generateRuby_compiled; fields.
  - apply Forall_app. split; [by apply valid_refs_app |].
    apply Forall_singleton. eexists. by apply list_lookup_middle.
  - by apply valid_refs_app.
Qed.

Lemma valid_refs_delete (h : list LiveLoopState) (r : Ref) (rs : list Ref) :
  valid_refs h rs -> valid_refs h (set_delete r rs).
Proof.
  intros Hv. apply Forall_forall. intros x [_ Hx]%list_elem_of_filter.
  by eapply Forall_forall in Hv.
Qed.

Lemma removeLoopFromSet_inactive (r : Ref) (w : World) (l : LiveLoopState) :
  heap w !! r = Some l ->
  r ∉ activeLoops (coordinator w) ->
  Coordinator.removeLoopFromSet r w
  = (Throw (Error ("Loop tag " +:+ tag l +:+ " not present.")), w).
Proof.
  intros E Hr. unfold Coordinator.removeLoopFromSet. js_simpl.
  rewrite decide_False by done.
  erewrite bind_normal by by apply deref_some. done.
Qed.

Lemma removeLoopFromSet_active (r : Ref) (w : World) (l : LiveLoopState) :
  heap w !! r = Some l ->
  r ∈ activeLoops (coordinator w) ->
  valid_refs (heap w) (activeLoops (coordinator w)) ->
  valid_refs (heap w) (deadLoops (coordinator w)) ->
  Coordinator.removeLoopFromSet r w = (Normal tt, compiled (removed r l w)).
Proof.
  intros E Hr Ha Hd. unfold Coordinator.removeLoopFromSet. js_simpl.
  rewrite decide_True by done. js_simpl.
  erewrite bind_normal by (apply deref_some; fields; exact E).
  js_simpl.
  apply generateRuby_compiled; unfold removed; fields.
  - by apply valid_refs_delete.
  - unfold set_add. case_decide; [done |].
    apply Forall_app. split; [done |]. apply Forall_singleton. by exists l.
Qed.

Lemma delete_none (r : Ref) (w : World) :
  heap w !! r = None -> LiveLoop.delete r w = (Throw TypeError, w).
Proof.
  intros E. unfold LiveLoop.delete. by erewrite bind_throw by by apply deref_none.
Qed.

Lemma delete_inactive (r : Ref) (w : World) (l : LiveLoopState) :
  heap w !! r = Some l ->
  r ∉ activeLoops (coordinator w) ->
  LiveLoop.delete r w
  = (Throw (Error ("Loop tag " +:+ tag l +:+ " not present.")), w).
Proof.
  intros E Hr. unfold LiveLoop.delete.
  erewrite bind_normal by by apply deref_some.
  by apply removeLoopFromSet_inactive.
Qed.

Lemma delete_active (r : Ref) (w : World) (l : LiveLoopState) :
  heap w !! r = Some l ->
  r ∈ activeLoops (coordinator w) ->
  valid_refs (heap w) (activeLoops (coordinator w)) ->
  valid_refs (heap w) (deadLoops (coordinator w)) ->
  LiveLoop.delete r w = (Normal tt, compiled (removed r l w)).
Proof.
  intros E Hr Ha Hd. unfold LiveLoop.delete.
  erewrite bind_normal by by apply deref_some.
  by apply removeLoopFromSet_active.
Qed.

(** Every call is one of the transitions. *)
Lemma call_transition (o : Op) (w : World) :
  valid_refs (heap w) (activeLoops (coordinator w)) ->
  valid_refs (heap w) (deadLoops (coordinator w)) ->
  transition w (call o w).2.
Proof.
  intros Ha Hd. destruct o as [name | r | r v | r | r]; cbn [call].
  - erewrite bind_normal by by apply new_created. apply t_new.
  - destruct (heap w !! r) as [l |] eqn:E.
    + destruct (decide (r ∈ activeLoops (coordinator w))) as [Hr | Hr].
      * rewrite (delete_active r w l) by done. by apply t_delete.
      * rewrite (delete_inactive r w l) by done. apply t_unchanged.
    + rewrite delete_none by done. apply t_unchanged.
  - destruct (heap w !! r) as [l |] eqn:E.
    + rewrite (setVolume_some r v w l) by done. by apply t_volume.
    + unfold LiveLoop.setVolume. rewrite update_none by done. apply t_unchanged.
  - destruct (heap w !! r) as [l |] eqn:E.
    + rewrite (nextEffect_some r w l) by done. by apply t_effect.
    + unfold LiveLoop.nextEffect. erewrite bind_throw by by apply update_none.
      apply t_unchanged.
  - destruct (heap w !! r) as [l |] eqn:E.
    + rewrite (prevEffect_some r w l) by done. by apply t_effect.
    + unfold LiveLoop.prevEffect. erewrite bind_throw by by apply update_none.
      apply t_unchanged.
Qed.

Lemma transition_well_formed (w w' : World) :
  well_formed w -> transition w w' -> well_formed w'.
Proof.
  intros (Ha & Hnd & Hd) T. unfold well_formed.
  destruct T as [| name | r l E Hr | r l v E | r l k E];
    unfold compiled, created, removed, stored; fields.
  - done.
  - split_and!; [| | done].
    + apply Forall_app. split; [by apply valid_refs_app |].
      apply Forall_singleton. eexists. by apply list_lookup_middle.
    + apply NoDup_app. split_and!; [done | | apply NoDup_singleton].
      intros x Hx ->%list_elem_of_singleton.
      pose proof (valid_refs_lt _ _ _ Ha Hx). lia.
  - split_and!; [| | done].
    + by apply valid_refs_delete.
    + unfold set_delete. by apply NoDup_filter.
  - split_and!; [| done | done]. by apply valid_refs_insert.
  - split_and!; [| done | done]. by apply valid_refs_insert.
Qed.

Lemma well_formed_valid_dead (w : World) :
  well_formed w -> valid_refs (heap w) (deadLoops (coordinator w)).
Proof. intros (_ & _ & ->). apply Forall_nil_2. Qed.

Lemma fresh_well_formed : well_formed fresh.
Proof. split_and!; [apply Forall_nil_2 | apply NoDup_nil_2 | done]. Qed.

(** Induction over the calls of a caller. *)
Lemma run_invariant (P : World -> Prop) :
  (∀ w w', well_formed w -> P w -> transition w w' -> P w') ->
  ∀ ops w, well_formed w -> P w -> well_formed (run ops w) ∧ P (run ops w).
Proof.
  intros Hstep. induction ops as [| o ops IH]; intros w Hwf HP; [done |].
  cbn [run].
  assert (T : transition w (call o w).2).
  { apply call_transition; [apply Hwf | by apply well_formed_valid_dead]. }
  apply IH; [by eapply transition_well_formed | by eapply Hstep].
Qed.

Lemma run_well_formed (ops : list Op) : well_formed (run ops fresh).
Proof.
  apply (run_invariant (λ _, True)); [done | apply fresh_well_formed | done].
Qed.

End Methods.

(** ** Scope numbers *)

Section Channels.
Context `{Directory} `{NumberFormat}.

Lemma set_delete_absent (r : Ref) (s : list Ref) : r ∉ s -> set_delete r s = s.
Proof.
  induction s as [| x s IH]; intros Hr; [done |].
  apply not_elem_of_cons in Hr as [Hne Hr]. unfold set_delete in *.
  rewrite filter_cons_True by done. by rewrite IH.
Qed.

Lemma set_delete_present (r : Ref) (s : list Ref) :
  NoDup s -> r ∈ s -> s ≡ₚ r :: set_delete r s.
Proof.
  induction 1 as [| x s Hx Hnd IH]; intros Hr; [by apply elem_of_nil in Hr |].
  destruct (decide (x = r)) as [-> | Hne].
  - unfold set_delete. rewrite filter_cons_False by (intros Hn; by apply Hn).
    fold (set_delete r s). by rewrite set_delete_absent.
  - apply elem_of_cons in Hr as [-> | Hr]; [done |].
    unfold set_delete. rewrite filter_cons_True by done. fold (set_delete r s).
    rewrite (IH Hr) at 1. apply Permutation_swap.
Qed.

Lemma chan_at_app (h : list LiveLoopState) (l : LiveLoopState) (rs : list Ref) :
  valid_refs h rs -> omap (chan_at (h ++ [l])) rs = omap (chan_at h) rs.
Proof.
  intros Hv. apply list_omap_ext, Forall_Forall2_diag.
  eapply Forall_impl; [exact Hv |]. intros r [x Hx]. unfold chan_at.
  by rewrite (lookup_app_l_Some _ _ _ _ Hx), Hx.
Qed.

Lemma chan_at_insert (h : list LiveLoopState) (r r' : Ref) (l l' : LiveLoopState) :
  h !! r = Some l -> scopeNum l' = scopeNum l ->
  chan_at (<[r := l']> h) r' = chan_at h r'.
Proof.
  intros E Hs. unfold chan_at. destruct (decide (r = r')) as [<- | Hne].
  - rewrite list_lookup_insert_eq by by eapply lookup_lt_Some.
    rewrite E. by cbn.
  - by rewrite list_lookup_insert_ne.
Qed.

Lemma omap_chan_at_insert (h : list LiveLoopState) (r : Ref)
      (l l' : LiveLoopState) (rs : list Ref) :
  h !! r = Some l -> scopeNum l' = scopeNum l ->
  omap (chan_at (<[r := l']> h)) rs = omap (chan_at h) rs.
Proof.
  intros E Hs. apply list_omap_ext, Forall_Forall2_diag, Forall_true.
  intros r'. by eapply chan_at_insert.
Qed.

Lemma transition_channels (w w' : World) :
  well_formed w -> channels_accounted w -> transition w w' ->
  channels_accounted w'.
Proof.
  intros (Ha & Hnd & Hd) Hc T. unfold channels_accounted, numbers in *.
  destruct T as [| name | r l E Hr | r l v E | r l k E];
    unfold compiled, created, removed, stored; fields.
  - done.
  - rewrite omap_app, chan_at_app by done.
    cbn [omap list_omap]. unfold chan_at at 2.
    rewrite list_lookup_middle by done. cbn [mbind option_bind].
    unfold constructed, regenerated, with_outputRuby. cbn [scopeNum].
    rewrite <- Hc.
    destruct (freeScopeNums (coordinator w)) as [| [c |] p]; cbn.
    + by rewrite app_nil_r.
    + rewrite app_assoc. symmetry. apply Permutation_cons_append.
    + by rewrite app_nil_r.
  - rewrite omap_app. rewrite <- Hc.
    rewrite (set_delete_present r (activeLoops (coordinator w)) Hnd Hr) at 2.
    cbn [omap list_omap]. unfold chan_at at 2. rewrite E. cbn [mbind option_bind].
    destruct (scopeNum l) as [c |]; cbn.
    + by rewrite <- app_assoc.
    + by rewrite app_nil_r.
  - by rewrite (omap_chan_at_insert _ _ l).
  - by rewrite (omap_chan_at_insert _ _ l).
Qed.

Lemma fresh_channels : channels_accounted fresh.
Proof.
  unfold channels_accounted, numbers, fresh, Coordinator.new,
    Coordinator.initial_scopes, all_scopes. fields. cbn [omap list_omap]. rewrite app_nil_r.
  generalize (seq 2 126). intros l. induction l as [| x l IH]; [done |].
  cbn. by rewrite IH.
Qed.

Lemma run_channels (ops : list Op) : channels_accounted (run ops fresh).
Proof.
  apply (run_invariant channels_accounted);
    [intros; by eapply transition_channels | apply fresh_well_formed | apply fresh_channels].
Qed.

End Channels.

Section HeldChannels.
Context `{Directory} `{NumberFormat}.

Lemma NoDup_all_scopes : NoDup all_scopes.
Proof. unfold all_scopes. apply NoDup_fmap_2; [apply _ | apply NoDup_seq]. Qed.

Lemma elem_of_all_scopes (c : Z) : c ∈ all_scopes -> 2 <= c <= 127.
Proof.
  unfold all_scopes. intros (k & -> & Hk%elem_of_seq)%list_elem_of_fmap. lia.
Qed.

Lemma omap_NoDup_inj {A B} (f : A -> option B) (l : list A) (x y : A) (b : B) :
  NoDup (omap f l) -> x ∈ l -> y ∈ l -> f x = Some b -> f y = Some b ->
  NoDup l -> x = y.
Proof.
  induction l as [| a l IH]; intros Hnd Hx Hy Fx Fy Hl;
    [by apply elem_of_nil in Hx |].
  apply NoDup_cons in Hl as [Ha Hl]. cbn in Hnd.
  apply elem_of_cons in Hx as [-> | Hx]; apply elem_of_cons in Hy as [-> | Hy].
  - done.
  - rewrite Fx in Hnd. apply NoDup_cons in Hnd as [Hb _].
    destruct Hb. apply list_elem_of_omap. by exists y.
  - rewrite Fy in Hnd. apply NoDup_cons in Hnd as [Hb _].
    destruct Hb. apply list_elem_of_omap. by exists x.
  - apply IH; try done. destruct (f a); [by apply NoDup_cons in Hnd as [_ ?] | done].
Qed.

(** X19: the part of the channel invariant that the code keeps: among the
    active loops that hold a number (not [undefined]), the numbers are
    pairwise distinct, none is in the free list, and all lie in 2..127. *)
Lemma held_numbers_sound (ops : list Op) :
  let w := run ops fresh in
  ∀ r c, r ∈ activeLoops (coordinator w) -> chan_at (heap w) r = Some c ->
    (2 <= c <= 127)
    ∧ (Some c ∉ freeScopeNums (coordinator w))
    ∧ (∀ r', r' ∈ activeLoops (coordinator w) ->
             chan_at (heap w) r' = Some c -> r' = r).
Proof.
  intros w r c Hr Hc.
  pose proof (run_channels ops) as Hacc. fold w in Hacc.
  destruct (run_well_formed ops) as (_ & Hnd & _). fold w in Hnd.
  unfold channels_accounted in Hacc.
  assert (Hall : NoDup (numbers (freeScopeNums (coordinator w))
                        ++ omap (chan_at (heap w)) (activeLoops (coordinator w)))).
  { rewrite Hacc. apply NoDup_all_scopes. }
  apply NoDup_app in Hall as (_ & Hdisj & Hheld).
  assert (Hin : c ∈ omap (chan_at (heap w)) (activeLoops (coordinator w))).
  { apply list_elem_of_omap. by exists r. }
  split; [| split].
  - apply elem_of_all_scopes. rewrite <- Hacc. apply elem_of_app. by right.
  - intros Hfree. apply (Hdisj c); [| done].
    unfold numbers. apply list_elem_of_omap. by exists (Some c).
  - intros r' Hr' Hc'.
    by apply (omap_NoDup_inj (chan_at (heap w)) (activeLoops (coordinator w)) r' r c).
Qed.

End HeldChannels.

(** ** The free list is a queue *)

Section FreeList.
Context `{Directory} `{NumberFormat}.

Lemma call_new (name : LiveLoopName) (w : World) :
  well_formed w -> (call (New name) w).2 = compiled (created name w).
Proof.
  intros Hwf. cbn [call].
  erewrite bind_normal;
    [done | apply new_created; [apply Hwf | by apply well_formed_valid_dead]].
Qed.

(** Constructing loops one after the other takes the scope numbers from
    the front of the list. *)
Lemma run_new_free (names : list LiveLoopName) :
  ∀ w, well_formed w ->
    freeScopeNums (coordinator (run (New <$> names) w))
    = drop (length names) (freeScopeNums (coordinator w)).
Proof.
  induction names as [| name names IH]; intros w Hwf; [done |].
  cbn [fmap list_fmap run length]. rewrite call_new by done.
  rewrite IH.
  - unfold compiled, created. fields.
    destruct (freeScopeNums (coordinator w)) as [| c p]; [| done].
    cbn [tail]. by rewrite !drop_nil.
  - eapply transition_well_formed; [exact Hwf | apply t_new].
Qed.

Lemma drop_initial_scopes (n : nat) :
  (n < 126)%nat ->
  drop n Coordinator.initial_scopes
  = Some (Z.of_nat n + 2)
      :: ((λ i : nat, Some (Z.of_nat i)) <$> seq (3 + n) (125 - n)).
Proof.
  intros Hn. unfold Coordinator.initial_scopes.
  rewrite <- fmap_drop, drop_seq.
  replace (126 - n)%nat with (S (125 - n)) by lia.
  cbn [seq fmap list_fmap].
  replace (Z.of_nat (2 + n)) with (Z.of_nat n + 2) by lia. done.
Qed.

End FreeList.

(** ** Scope numbers: claims C1, C2, C3 *)

Section ScopeClaims.
Context `{Directory} `{NumberFormat}.

(** With a scope number left, the constructor takes the first of the
    list; with none left it still completes, and the loop is registered
    holding [undefined]. *)
Lemma new_scope (name : LiveLoopName) (w : World) :
  well_formed w ->
  ∃ l, LiveLoop.new name w = (Normal (length (heap w)), compiled (created name w))
       ∧ heap (compiled (created name w)) !! length (heap w) = Some l
       ∧ scopeNum l = shifted (freeScopeNums (coordinator w))
       ∧ length (heap w) ∈ activeLoops (coordinator (compiled (created name w))).
Proof.
  intros Hwf. eexists. split_and!.
  - apply new_created; [apply Hwf | by apply well_formed_valid_dead].
  - unfold compiled, created. fields. by apply list_lookup_middle.
  - reflexivity.
  - unfold compiled, created. fields. apply elem_of_app. right.
    by apply list_elem_of_singleton.
Qed.

(** C2, as the code has it: [getFreeScope] removes and returns the head
    of the free list.  From a fresh coordinator the head is the lowest
    free number for as long as loops are only created; a released number
    goes to the tail, so after creating A and B and removing A, the next
    loop gets 4. *)
Theorem getFreeScope_takes_head
        (w : World) (c : option Z) (rest : list (option Z))
        (names : list LiveLoopName) :
  freeScopeNums (coordinator w) = c :: rest ->
  (length names < 126)%nat ->
  Coordinator.getFreeScope w
    = (Normal c, with_coordinator (with_freeScopeNums rest (coordinator w)) w)
  ∧ (let w' := run (New <$> names) fresh in
     ∃ rest', freeScopeNums (coordinator w')
              = Some (Z.of_nat (length names) + 2) :: rest'
              ∧ (∀ c', Some c' ∈ rest' -> Z.of_nat (length names) + 2 < c'))
  ∧ (let w' := run [New "alpha"; New "beta"; Delete 0%nat] fresh in
     freeScopeNums (coordinator w')
     = drop 2 Coordinator.initial_scopes ++ [Some 2]
     ∧ chan_at (heap (run [New "gamma"] w')) 2%nat = Some 4).
Proof.
  intros Hpool Hlen. split_and!.
  - rewrite getFreeScope_shift, Hpool. reflexivity.
  - cbn zeta. rewrite run_new_free by apply fresh_well_formed.
    change (freeScopeNums (coordinator fresh)) with Coordinator.initial_scopes.
    rewrite drop_initial_scopes by done. eexists. split; [reflexivity |].
    intros c' (k & [= ->] & Hk%elem_of_seq)%list_elem_of_fmap. lia.
  - vm_compute. by split.
Qed.

End ScopeClaims.

(** C1, where the code departs from it: 127 constructor calls on a fresh
    coordinator leave an active loop whose scope number is [undefined], so
    the active loops do not all hold a number within 2..127. *)
Theorem channels_claim_fails_when_exhausted :
  ¬ channels_claim (run (replicate 127 (New "alpha")) fresh).
Proof.
  intros Hc. destruct (Hc 126%nat) as (c & Hc' & _).
  - vm_compute. apply list_elem_of_lookup. by exists 126%nat.
  - vm_compute in Hc'. discriminate Hc'.
Qed.

(** C2, refuted as stated: after creating A and B and removing A, number 2
    is free again, yet [getFreeScope] returns 4 and the next loop holds 4. *)
Lemma released_scope_is_not_next :
  let w := run [New "alpha"; New "beta"; Delete 0%nat] fresh in
  chan_at (heap w) 0%nat = Some 2
  ∧ chan_at (heap w) 1%nat = Some 3
  ∧ last (freeScopeNums (coordinator w)) = Some (Some 2)
  ∧ (Coordinator.getFreeScope w).1 = Normal (Some 4)
  ∧ chan_at (heap (run [New "gamma"] w)) 2%nat = Some 4
  ∧ chan_at (heap (run [New "gamma"] w)) 2%nat ≠ Some 2.
Proof. vm_compute. by split_and!. Qed.

(** The head of the fresh free list, and the list after two constructions. *)
Lemma getFreeScope_takes_head_witness :
  Coordinator.getFreeScope fresh
    = (Normal (Some 2),
       with_coordinator
         (with_freeScopeNums (tail Coordinator.initial_scopes) (coordinator fresh))
         fresh)
  ∧ (let w' := run (New <$> ["alpha"; "beta"]) fresh in
     ∃ rest', freeScopeNums (coordinator w') = Some (Z.of_nat 2 + 2) :: rest'
              ∧ (∀ c', Some c' ∈ rest' -> Z.of_nat 2 + 2 < c'))
  ∧ (let w' := run [New "alpha"; New "beta"; Delete 0%nat] fresh in
     freeScopeNums (coordinator w')
     = drop 2 Coordinator.initial_scopes ++ [Some 2]
     ∧ chan_at (heap (run [New "gamma"] w')) 2%nat = Some 4).
Proof.
  apply (getFreeScope_takes_head fresh (Some 2) (tail Coordinator.initial_scopes)
                                 ["alpha"; "beta"]).
  - reflexivity.
  - cbn. lia.
Defined.

(** C3, where the code departs from it: once 126 loops hold the 126 scope
    numbers the free list is empty, and one more constructor call still
    returns normally.  The new loop is an object, is active, holds
    [undefined], has taken an id, and a program has been published. *)
Theorem constructor_succeeds_when_exhausted :
  let w := run (replicate 126 (New "alpha")) fresh in
  let result := LiveLoop.new "alpha" w in
  freeScopeNums (coordinator w) = []
  ∧ result.1 = Normal 126%nat
  ∧ scopeNum <$> heap result.2 !! 126%nat = Some None
  ∧ outputRuby <$> heap result.2 !! 126%nat
    = Some (Some (declaration "loop_126_alpha" "undefined" "1" "reverb" "undefined"))
  ∧ activeLoops (coordinator result.2) = activeLoops (coordinator w) ++ [126%nat]
  ∧ idCount result.2 = idCount w + 1
  ∧ length (communicator (coordinator result.2))
    = S (length (communicator (coordinator w))).
Proof. vm_compute. by split_and!. Qed.

(** ** A loop's own text: claims C4, C10 *)

Section LoopText.
Context `{Directory} `{NumberFormat}.

(** [generateRuby] nests the wrappers in the order of [declaration]. *)
Lemma ruby_of_declaration (l : LiveLoopState) :
  LiveLoop.ruby_of l
  = declaration (tag l) (js_int_str (scopeNum l)) (Number_toString (volume l))
                (name (effectData l)) (js_str (rawRuby l)).
Proof. reflexivity. Qed.

(** The text does not depend on the text cached before. *)
Lemma ruby_of_with_outputRuby (o : option string) (l : LiveLoopState) :
  LiveLoop.ruby_of (with_outputRuby o l) = LiveLoop.ruby_of l.
Proof. reflexivity. Qed.

(** Regenerating twice is regenerating once. *)
Lemma generateRuby_twice (r : Ref) (w : World) (l : LiveLoopState) :
  heap w !! r = Some l ->
  (LiveLoop.generateRuby r ;; LiveLoop.generateRuby r) w = LiveLoop.generateRuby r w.
Proof.
  intros E. erewrite bind_normal by by apply generateRuby_some.
  rewrite (generateRuby_some r _ (regenerated l)) by by eapply stored_lookup.
  rewrite (generateRuby_some r w l) by done. by rewrite stored_stored.
Qed.

(** Whatever the directory returns for the name, the constructor leaves
    [rawRuby] unassigned, and the body of the declaration is the text
    [undefined]. *)
Lemma constructed_body (loopName : LiveLoopName) (n : Z) (scope : option Z) :
  let l := constructed loopName n scope in
  rawRuby l = None
  ∧ outputRuby l
    = Some (declaration (tag l) (js_int_str scope) "1"
                        (name (getEffect (Int 0))) "undefined").
Proof. by split. Qed.

(** C10: a loop just constructed has volume 1 and effect index 0, and its
    first text uses [amp: 1] and the name of the directory's effect 0. *)
Theorem constructor_defaults (ops : list Op) (loopName : LiveLoopName) :
  let w := run ops fresh in
  let this := length (heap w) in
  ∃ w' l,
    LiveLoop.new loopName w = (Normal this, w')
    ∧ heap w' !! this = Some l
    ∧ volume l = 1%float
    ∧ effectNum l = Int 0
    ∧ effectData l = getEffect (Int 0)
    ∧ outputRuby l
      = Some (declaration (tag l) (js_int_str (scopeNum l)) "1"
                          (name (getEffect (Int 0))) "undefined").
Proof.
  intros w this. pose proof (run_well_formed ops) as Hwf. fold w in Hwf.
  destruct (new_scope loopName w Hwf) as (l & Hnew & Hl & _).
  exists (compiled (created loopName w)), l. split; [exact Hnew |].
  split; [exact Hl |].
  unfold compiled, created in Hl. fields.
  rewrite list_lookup_middle in Hl by done. injection Hl as <-.
  by split_and!.
Qed.

End LoopText.

(** C4, where the code departs from it: the constructor looks the loop's
    Ruby up and keeps it in a local constant only, so the innermost text of
    the declaration is [undefined] and not the looked-up body. *)
Theorem declaration_has_no_body :
  let w := run [New "weird_vinyl"] fresh in
  getRubyForLiveLoop "weird_vinyl" = "sample :weird_vinyl"
  ∧ rawRuby <$> heap w !! 0%nat = Some None
  ∧ outputRuby <$> heap w !! 0%nat
    = Some (Some (declaration "loop_0_weird_vinyl" "2" "1" "reverb" "undefined")).
Proof. vm_compute. by split_and!. Qed.

(** ** The program: claim C5 *)

Section Program.
Context `{Directory} `{NumberFormat}.

Lemma transition_keeps_readonly (w w' : World) :
  transition w w' -> keeps_readonly (heap w) (heap w').
Proof.
  intros T r x Hx.
  destruct T as [| name | r' l E Hr | r' l v E | r' l k E];
    unfold compiled, created, removed, stored; fields.
  - by exists x.
  - exists x. by rewrite (lookup_app_l_Some _ _ _ _ Hx).
  - by exists x.
  - destruct (decide (r' = r)) as [-> | Hne].
    + eexists. rewrite list_lookup_insert_eq by by eapply lookup_lt_Some.
      split; [reflexivity |]. rewrite E in Hx. by injection Hx as <-.
    + exists x. by rewrite list_lookup_insert_ne.
  - destruct (decide (r' = r)) as [-> | Hne].
    + eexists. rewrite list_lookup_insert_eq by by eapply lookup_lt_Some.
      split; [reflexivity |]. rewrite E in Hx. by injection Hx as <-.
    + exists x. by rewrite list_lookup_insert_ne.
Qed.

Lemma keeps_readonly_trans (h1 h2 h3 : list LiveLoopState) :
  keeps_readonly h1 h2 -> keeps_readonly h2 h3 -> keeps_readonly h1 h3.
Proof.
  intros H12 H23 r l Hl. destruct (H12 r l Hl) as (l2 & Hl2 & ? & ? & ? & ?).
  destruct (H23 r l2 Hl2) as (l3 & Hl3 & ? & ? & ? & ?).
  exists l3. split_and!; congruence.
Qed.

Lemma ruby_at_insert_volume (h : list LiveLoopState) (r r' : Ref)
      (l : LiveLoopState) (v : float) :
  h !! r = Some l -> ruby_at (<[r := with_volume v l]> h) r' = ruby_at h r'.
Proof.
  intros E. unfold ruby_at. destruct (decide (r = r')) as [<- | Hne].
  - rewrite list_lookup_insert_eq by by eapply lookup_lt_Some. by rewrite E.
  - by rewrite list_lookup_insert_ne.
Qed.

(** What the code builds is the text written out: the header, then the
    wrapper and the stop blocks around any declarations. *)
Lemma header_text_expected : Coordinator.header_text = expected_header.
Proof. reflexivity. Qed.

Lemma program_text_expected (hdr : string) (decls tags : list string) :
  program_text hdr decls tags = expected_program hdr decls tags.
Proof. reflexivity. Qed.

Lemma cached_fst (h : list LiveLoopState) (rs : list Ref) : (cached h rs).*1 = rs.
Proof.
  unfold cached. rewrite <- list_fmap_compose.
  rewrite <- (list_fmap_id rs) at 2. by apply list_fmap_ext.
Qed.

Lemma cached_snd (h : list LiveLoopState) (rs : list Ref) :
  (cached h rs).*2 = ruby_at h <$> rs.
Proof. unfold cached. rewrite <- list_fmap_compose. by apply list_fmap_ext. Qed.

Lemma keeps_readonly_valid (h h' : list LiveLoopState) (rs : list Ref) :
  keeps_readonly h h' -> valid_refs h rs -> valid_refs h' rs.
Proof.
  intros Hk Hv. eapply Forall_impl; [exact Hv |].
  intros r [x Hx]. destruct (Hk r x Hx) as (x' & Hx' & _). by exists x'.
Qed.

Lemma keeps_readonly_tag (h h' : list LiveLoopState) (r : Ref) :
  keeps_readonly h h' -> is_Some (h !! r) ->
  tag_at h' r = tag_at h r ∧ chan_at h' r = chan_at h r.
Proof.
  intros Hk [x Hx]. destruct (Hk r x Hx) as (x' & Hx' & Ht & _ & Hs & _).
  unfold tag_at, chan_at. rewrite Hx, Hx'. cbn. by rewrite Ht, Hs.
Qed.

Lemma keeps_readonly_reads (h h' : list LiveLoopState) (p : Published) :
  keeps_readonly h h' -> reads h p -> reads h' p.
Proof.
  intros Hk (Hv & Hnd & Hd & Hs). split_and!.
  - by eapply keeps_readonly_valid.
  - done.
  - apply Forall_lookup_2. intros i d Hi.
    pose proof (Forall_lookup_1 _ _ _ _ Hd Hi) as (v & n & Hdv).
    assert (Hr : is_Some (h !! d.1)).
    { eapply (Forall_lookup_1 _ _ i) in Hv; [exact Hv |].
      by rewrite list_lookup_fmap, Hi. }
    destruct (keeps_readonly_tag h h' d.1 Hk Hr) as [Et Ec].
    exists v, n. by rewrite Et, Ec.
  - by eapply keeps_readonly_valid.
Qed.

Lemma keeps_readonly_text (h h' : list LiveLoopState) (progs : list Published) :
  keeps_readonly h h' ->
  Forall (reads h) progs ->
  text_of h' <$> progs = text_of h <$> progs.
Proof.
  intros Hk Hv. apply list_fmap_ext. intros i p Hp.
  eapply Forall_lookup_1 in Hv; [| exact Hp]. destruct Hv as (_ & _ & _ & Hv).
  unfold text_of. f_equal.
  apply list_fmap_ext. intros j r Hr.
  eapply Forall_lookup_1 in Hv; [| exact Hr].
  by destruct (keeps_readonly_tag h h' r Hk Hv) as [-> _].
Qed.

Lemma self_declared_cached (w : World) (rs : list Ref) :
  self_declared w -> valid_refs (heap w) rs ->
  Forall (λ d, declares (heap w) d.1 d.2) (cached (heap w) rs).
Proof.
  intros Hs Hv. unfold cached. apply Forall_fmap.
  eapply Forall_impl; [exact Hv |]. intros r [l Hl]. cbn [fst snd].
  destruct (Hs r l Hl) as (_ & He & v & Ho).
  exists v, (effectNum l). cbn [fst snd]. unfold ruby_at, tag_at, chan_at.
  rewrite Hl. cbn. by rewrite Ho, He.
Qed.

(** A program that declares the loops now active extends an explanation. *)
Lemma explains_publish (w w' : World) (progs : list Published) (p : Published) :
  explains w progs ->
  keeps_readonly (heap w) (heap w') ->
  p.1 = cached (heap w') (activeLoops (coordinator w')) ->
  communicator (coordinator w') = communicator (coordinator w) ++ [text_of (heap w') p] ->
  reads (heap w') p ->
  NoDup p.2 ->
  (∀ r, r ∈ p.2 -> is_Some (heap w !! r) ∧ r ∈ activeLoops (coordinator w)) ->
  (∀ r, is_Some (heap w' !! r) ∧ (r ∉ activeLoops (coordinator w'))
        ↔ (is_Some (heap w !! r) ∧ r ∉ activeLoops (coordinator w)) ∨ r ∈ p.2) ->
  explains w' (progs ++ [p]).
Proof.
  intros (Hc & Hv & Hnd & Hiff & Hafter & Hlast) Hk Hp1 Hc' Hp Hnds Hact Hiff'.
  assert (Hstops : ∀ r, r ∈ concat ((progs ++ [p]).*2)
                        ↔ is_Some (heap w' !! r) ∧ r ∉ activeLoops (coordinator w')).
  { intros r. rewrite fmap_app, concat_app. cbn [fmap list_fmap concat].
    rewrite app_nil_r. by rewrite elem_of_app, Hiff, Hiff'. }
  unfold explains. split_and!.
  - rewrite fmap_app. cbn [fmap list_fmap].
    rewrite Hc', Hc. by rewrite (keeps_readonly_text _ _ _ Hk Hv).
  - apply Forall_app. split; [| by apply Forall_singleton].
    eapply Forall_impl; [exact Hv |]. intros q. by apply keeps_readonly_reads.
  - rewrite fmap_app, concat_app. cbn [fmap list_fmap concat].
    rewrite app_nil_r.
    apply NoDup_app. split_and!; [done | | done].
    intros r Hr Hr'. apply Hiff in Hr as [_ Hr]. by apply Hact in Hr' as [_ ?].
  - exact Hstops.
  - intros i j q1 q2 r Hi Hj Hij Hr.
    destruct (decide (j < length progs)%nat) as [Hlt | Hge].
    + rewrite lookup_app_l in Hi by lia. rewrite lookup_app_l in Hj by lia.
      exact (Hafter i j q1 q2 r Hi Hj Hij Hr).
    + apply lookup_app_Some in Hj as [Hj | [_ Hj]];
        [apply lookup_lt_Some in Hj; lia |].
      apply list_lookup_singleton_Some in Hj as [_ <-].
      rewrite Hp1, cached_fst.
      assert (Hin : r ∈ concat ((progs ++ [p]).*2)).
      { apply list_elem_of_In, in_concat. exists q1.2.
        split; [| by apply list_elem_of_In]. apply list_elem_of_In.
        apply list_elem_of_fmap. exists q1. split; [done |].
        by eapply list_elem_of_lookup_2. }
      by apply Hstops in Hin as [_ ?].
  - by rewrite last_snoc.
Qed.

Lemma program_of_text (w : World) :
  header (coordinator w) = expected_header ->
  program_of w
  = text_of (heap w)
      (cached (heap w) (activeLoops (coordinator w)), deadLoops (coordinator w)).
Proof.
  intros Hh. unfold program_of, text_of. cbn [fst snd].
  rewrite cached_snd, Hh. apply program_text_expected.
Qed.

(** Compiling extends an explanation by the program it sends. *)
Lemma explains_compiled (w0 w : World) (progs : list Published) :
  explains w0 progs ->
  keeps_readonly (heap w0) (heap w) ->
  header (coordinator w) = expected_header ->
  communicator (coordinator w) = communicator (coordinator w0) ->
  self_declared w ->
  valid_refs (heap w) (activeLoops (coordinator w)) ->
  NoDup (activeLoops (coordinator w)) ->
  valid_refs (heap w) (deadLoops (coordinator w)) ->
  NoDup (deadLoops (coordinator w)) ->
  (∀ r, r ∈ deadLoops (coordinator w) ->
        is_Some (heap w0 !! r) ∧ r ∈ activeLoops (coordinator w0)) ->
  (∀ r, is_Some (heap w !! r) ∧ r ∉ activeLoops (coordinator w)
        ↔ (is_Some (heap w0 !! r) ∧ r ∉ activeLoops (coordinator w0))
          ∨ r ∈ deadLoops (coordinator w)) ->
  explains (compiled w)
           (progs ++ [(cached (heap w) (activeLoops (coordinator w)),
                       deadLoops (coordinator w))]).
Proof.
  intros Hex Hk Hh Hc Hs Ha Hna Hv Hnd Hact Hiff.
  apply (explains_publish w0 (compiled w) progs _ Hex Hk).
  - reflexivity.
  - unfold compiled. all_fields. rewrite Hc. do 2 f_equal.
    exact (program_of_text w Hh).
  - unfold compiled. all_fields. unfold reads. cbn [fst snd]. rewrite cached_fst.
    split_and!; [exact Ha | exact Hna | by apply self_declared_cached | exact Hv].
  - exact Hnd.
  - exact Hact.
  - exact Hiff.
Qed.

Lemma transition_self_declared (w w' : World) :
  self_declared w -> transition w w' -> self_declared w'.
Proof.
  intros Hs T.
  destruct T as [| name | r l E Hr | r l v E | r l k E];
    unfold compiled, created, removed, stored; intros r' x; all_fields.
  - apply Hs.
  - intros [Hx | [_ Hx]]%lookup_app_Some; [by eapply Hs |].
    apply list_lookup_singleton_Some in Hx as [_ <-].
    split_and!; [done | done |]. by exists 1%float.
  - apply Hs.
  - destruct (decide (r = r')) as [<- | Hne].
    + rewrite list_lookup_insert_eq by by eapply lookup_lt_Some.
      intros [= <-]. exact (Hs r l E).
    + rewrite list_lookup_insert_ne by done. apply Hs.
  - destruct (decide (r = r')) as [<- | Hne].
    + rewrite list_lookup_insert_eq by by eapply lookup_lt_Some.
      intros [= <-]. destruct (Hs r l E) as (Hraw & _ & _).
      split_and!; [exact Hraw | done |]. exists (volume l).
      unfold moved, regenerated. all_fields. f_equal.
      rewrite ruby_of_declaration. all_fields. by rewrite Hraw.
    + rewrite list_lookup_insert_ne by done. apply Hs.
Qed.

Lemma cached_insert_volume (h : list LiveLoopState) (r : Ref) (l : LiveLoopState)
      (v : float) (rs : list Ref) :
  h !! r = Some l -> cached (<[r := with_volume v l]> h) rs = cached h rs.
Proof.
  intros E. apply list_fmap_ext. intros i r' _. f_equal.
  by apply ruby_at_insert_volume.
Qed.

Lemma transition_published_right (w w' : World) :
  well_formed w -> published_right w -> transition w w' -> published_right w'.
Proof.
  intros Hwf (Hh & Hs & progs & Hex) T.
  pose proof (transition_well_formed w w' Hwf T) as (Ha' & Hna' & _).
  pose proof (transition_self_declared w w' Hs T) as Hs'.
  pose proof (transition_keeps_readonly w w' T) as Hk.
  destruct Hwf as (Ha & Hnd & Hd).
  split_and!; [| exact Hs' |].
  { destruct T; exact Hh. }
  destruct T as [| name | r l E Hr | r l v E | r l k E].
  - by exists progs.
  - eexists.
    apply (explains_compiled w (created name w) progs Hex Hk Hh eq_refl Hs' Ha' Hna');
      unfold created; all_fields; rewrite ?Hd.
    + apply Forall_nil_2.
    + apply NoDup_nil_2.
    + by intros r ?%elem_of_nil.
    + intros r.
      rewrite elem_of_nil, not_elem_of_app, list_elem_of_singleton.
      rewrite !lookup_lt_is_Some, length_app. cbn [length].
      split.
      * intros (? & ? & ?). left. split; [lia | done].
      * intros [[? ?] | []]. split_and!; [lia | done | lia].
  - eexists.
    apply (explains_compiled w (removed r l w) progs Hex Hk Hh eq_refl Hs' Ha' Hna');
      unfold removed, set_add; all_fields; rewrite ?Hd;
      rewrite ?decide_False by apply not_elem_of_nil; cbn [app].
    + apply Forall_singleton. by exists l.
    + apply NoDup_singleton.
    + intros r' ->%list_elem_of_singleton. by split; [exists l |].
    + intros r'. unfold set_delete.
      rewrite list_elem_of_filter, list_elem_of_singleton. split.
      * intros [Hv Hn]. destruct (decide (r' = r)) as [-> | Hne]; [by right |].
        left. split; [done |]. intros Hin. by apply Hn.
      * intros [[Hv Hn] | ->]; (split; [by eauto |]).
        -- intros [_ Hin]. by apply Hn.
        -- by intros [Hne _].
  - exists progs. destruct Hex as (Hc & Hv & Hndp & Hiff & Hafter & Hlast).
    unfold explains, stored. unfold stored in Hk. revert Hk. all_fields. intros Hk.
    split_and!.
    + by rewrite (keeps_readonly_text _ _ _ Hk Hv).
    + eapply Forall_impl; [exact Hv |]. intros p. by apply keeps_readonly_reads.
    + exact Hndp.
    + intros r'. rewrite Hiff. by rewrite !lookup_lt_is_Some, length_insert.
    + exact Hafter.
    + rewrite Hlast. symmetry. by apply cached_insert_volume.
  - eexists.
    apply (explains_compiled w (stored r (moved k l) w) progs Hex Hk Hh eq_refl Hs' Ha' Hna');
      unfold stored; all_fields; rewrite ?Hd.
    + apply Forall_nil_2.
    + apply NoDup_nil_2.
    + by intros r' ?%elem_of_nil.
    + intros r'.
      rewrite elem_of_nil, !lookup_lt_is_Some, length_insert. tauto.
Qed.

Lemma fresh_published_right : published_right fresh.
Proof.
  split_and!; [reflexivity | |].
  - intros r l Hl. cbn [fresh heap] in Hl. by rewrite lookup_nil in Hl.
  - exists []. split_and!;
      [done | apply Forall_nil_2 | apply NoDup_nil_2 | | | done].
    + intros r. cbn. rewrite elem_of_nil, lookup_nil.
      split; [done | by intros [[]%is_Some_None _]].
    + intros i j p q r Hi. by rewrite lookup_nil in Hi.
Qed.

Lemma run_published_right (ops : list Op) : published_right (run ops fresh).
Proof.
  apply (run_invariant published_right);
    [intros; by eapply transition_published_right | apply fresh_well_formed
    | apply fresh_published_right].
Qed.

(** C5: [Coordinator.generateRuby] publishes, and keeps, one text: the
    scope-1 wrapper around the header and the cached text of each active
    loop, one per loop and each on a line, then one stop block per dead
    loop; it empties the dead set and changes nothing else.  Over any run
    of calls the header is the one written out above, each loop caches
    its own declaration, and the programs sent read back as follows: each
    declares loops that are all different, by their own declarations;
    each removed loop is stopped by exactly one program and no other loop
    is stopped; no program declares a loop that it or an earlier one
    stops; and the last one declares exactly the loops now active. *)
Theorem compile_and_publish (w : World) (ops : list Op) :
  valid_refs (heap w) (activeLoops (coordinator w)) ->
  valid_refs (heap w) (deadLoops (coordinator w)) ->
  let c := coordinator w in
  let text := expected_program (header c)
                               (ruby_at (heap w) <$> activeLoops c)
                               (tag_at (heap w) <$> deadLoops c) in
  (∃ w', Coordinator.generateRuby w = (Normal tt, w')
         ∧ communicator (coordinator w') = communicator c ++ [text]
         ∧ coordOutputRuby (coordinator w') = Some text
         ∧ deadLoops (coordinator w') = []
         ∧ activeLoops (coordinator w') = activeLoops c
         ∧ freeScopeNums (coordinator w') = freeScopeNums c
         ∧ heap w' = heap w)
  ∧ (let v := run ops fresh in
     NoDup (activeLoops (coordinator v))
     ∧ deadLoops (coordinator v) = []
     ∧ header (coordinator v) = expected_header
     ∧ self_declared v
     ∧ ∃ progs, explains v progs).
Proof.
  intros Ha Hd c text. split.
  - exists (compiled w). split; [by apply generateRuby_compiled |].
    unfold compiled, program_of. all_fields. fold c.
    rewrite program_text_expected. by split_and!.
  - cbn zeta. destruct (run_well_formed ops) as (_ & Hnd & Hdead).
    destruct (run_published_right ops) as (Hh & Hs & progs & Hex).
    split_and!; [exact Hnd | exact Hdead | exact Hh | exact Hs |].
    by exists progs.
Qed.

End Program.

(** A program with one declaration and one stop block, and a run that
    constructs a loop and deletes it. *)
Lemma compile_and_publish_witness :
  let w := removed 0%nat (constructed "alpha" 0 (Some 2))
                   (run [New "alpha"; New "beta"] fresh) in
  let c := coordinator w in
  let text := expected_program (header c)
                               (ruby_at (heap w) <$> activeLoops c)
                               (tag_at (heap w) <$> deadLoops c) in
  activeLoops c = [1%nat] ∧ deadLoops c = [0%nat]
  ∧ (∃ w', Coordinator.generateRuby w = (Normal tt, w')
           ∧ communicator (coordinator w') = communicator c ++ [text]
           ∧ coordOutputRuby (coordinator w') = Some text
           ∧ deadLoops (coordinator w') = []
           ∧ activeLoops (coordinator w') = activeLoops c
           ∧ freeScopeNums (coordinator w') = freeScopeNums c
           ∧ heap w' = heap w)
  ∧ (let v := run [New "alpha"; Delete 0%nat] fresh in
     NoDup (activeLoops (coordinator v))
     ∧ deadLoops (coordinator v) = []
     ∧ header (coordinator v) = expected_header
     ∧ self_declared v
     ∧ ∃ progs, explains v progs).
Proof.
  intros w c text. split; [reflexivity |]. split; [reflexivity |].
  apply (compile_and_publish w [New "alpha"; Delete 0%nat]).
  - apply Forall_singleton. vm_compute. eauto.
  - apply Forall_singleton. vm_compute. eauto.
Defined.

(** ** Effects and volume: claims C6, C7 *)

Section EffectIndex.

(** Retreating then advancing returns to the index, whatever the number
    of effects. *)
Lemma prev_then_next (n i : Z) :
  1 <= n -> 0 <= i < n ->
  js_rem (js_add (js_rem (js_add (Int i) (-1)) n) 1) n = Int i.
Proof.
  intros Hn Hi. cbn [js_add js_rem].
  destruct (n =? 0) eqn:En; [lia |]. cbn [js_add js_rem]. rewrite En. f_equal.
  destruct (decide (i = 0)) as [-> | Hne].
  - destruct (decide (n = 1)) as [-> | Hn1]; [reflexivity |].
    change (0 + -1) with (- (1)). rewrite Z.rem_opp_l by lia.
    rewrite (Z.rem_small 1 n) by lia. apply Z.rem_small. lia.
  - rewrite (Z.rem_small (i + -1) n) by lia.
    replace (i + -1 + 1) with i by lia. apply Z.rem_small. lia.
Qed.

(** Advancing then retreating returns to the index, except from the last
    one. *)
Lemma next_then_prev (n i : Z) :
  0 <= i -> i + 1 < n ->
  js_rem (js_add (js_rem (js_add (Int i) 1) n) (-1)) n = Int i.
Proof.
  intros Hi Hn. cbn [js_add js_rem].
  destruct (n =? 0) eqn:En; [lia |]. cbn [js_add js_rem]. rewrite En. f_equal.
  rewrite (Z.rem_small (i + 1) n) by lia.
  replace (i + 1 + -1) with i by lia. apply Z.rem_small. lia.
Qed.

(** With two effects or more, retreating from index 0 gives -1, and so
    does advancing then retreating from the last index. *)
Lemma prev_from_zero (n : Z) :
  2 <= n -> js_rem (js_add (Int 0) (-1)) n = Int (-1).
Proof.
  intros Hn. cbn [js_add js_rem]. destruct (n =? 0) eqn:En; [lia |]. f_equal.
  change (0 + -1) with (- (1)). rewrite Z.rem_opp_l by lia.
  by rewrite (Z.rem_small 1 n) by lia.
Qed.

Lemma next_then_prev_from_last (n : Z) :
  2 <= n ->
  js_rem (js_add (js_rem (js_add (Int (n - 1)) 1) n) (-1)) n = Int (-1).
Proof.
  intros Hn.
  assert (js_rem (js_add (Int (n - 1)) 1) n = Int 0) as ->.
  { cbn [js_add js_rem]. destruct (n =? 0) eqn:En; [lia |]. f_equal.
    replace (n - 1 + 1) with n by lia. apply Z.rem_same. lia. }
  by apply prev_from_zero.
Qed.

End EffectIndex.

(** C6, where the code departs from it: with three effects, [prevEffect]
    on a new loop leaves index -1, and [nextEffect] then [prevEffect] from
    the valid index 2 leaves -1 instead of 2. *)
Theorem prevEffect_leaves_negative_index :
  let at_two := run [New "alpha"; NextEffect 0%nat; NextEffect 0%nat] fresh in
  LiveLoop.numOfEffects = 3
  ∧ effectNum <$> heap (run [New "alpha"; PrevEffect 0%nat] fresh) !! 0%nat
    = Some (Int (-1))
  ∧ effectNum <$> heap at_two !! 0%nat = Some (Int 2)
  ∧ effectNum <$> heap (run [NextEffect 0%nat; PrevEffect 0%nat] at_two) !! 0%nat
    = Some (Int (-1)).
Proof. vm_compute. by split_and!. Qed.

Section Volume.
Context `{Directory} `{NumberFormat}.

Lemma clamp_below (v : float) : (v <? 0)%float = true -> LiveLoop.clamp v = 0%float.
Proof. intros Hv. unfold LiveLoop.clamp. by rewrite Hv. Qed.

Lemma clamp_above (v : float) :
  (v <? 0)%float = false -> (1 <? v)%float = true -> LiveLoop.clamp v = 1%float.
Proof. intros Hv Hv'. unfold LiveLoop.clamp. by rewrite Hv, Hv'. Qed.

Lemma clamp_within (v : float) :
  (v <? 0)%float = false -> (1 <? v)%float = false -> LiveLoop.clamp v = v.
Proof. intros Hv Hv'. unfold LiveLoop.clamp. by rewrite Hv, Hv'. Qed.

(** [setVolume] stores the clamped volume in the loop and touches nothing
    else: neither the loop's text nor the coordinator. *)
Lemma setVolume_only_stores (r : Ref) (v : float) (w : World) (l : LiveLoopState) :
  heap w !! r = Some l ->
  ∃ w', LiveLoop.setVolume r v w = (Normal tt, w')
        ∧ heap w' !! r = Some (with_volume (LiveLoop.clamp v) l)
        ∧ outputRuby <$> heap w' !! r = Some (outputRuby l)
        ∧ coordinator w' = coordinator w.
Proof.
  intros E. eexists. split; [by apply setVolume_some |].
  rewrite (stored_lookup r l _ w E). by split_and!.
Qed.

End Volume.

(** C7, where the code departs from it: [setVolume] clamps as stated, but
    nothing is recompiled or published; the loop's text and the program
    still say [amp: 1] after [setVolume(0.3)]. *)
Theorem setVolume_publishes_nothing :
  let w0 := run [New "alpha"] fresh in
  let w := run [SetVolume 0%nat 0x1.3333333333333p-2%float] w0 in
  LiveLoop.clamp (-5)%float = 0%float
  ∧ LiveLoop.clamp 5%float = 1%float
  ∧ LiveLoop.clamp 0x1.3333333333333p-2%float = 0x1.3333333333333p-2%float
  ∧ volume <$> heap w !! 0%nat = Some 0x1.3333333333333p-2%float
  ∧ outputRuby <$> heap w !! 0%nat
    = Some (Some (declaration "loop_0_alpha" "2" "1" "reverb" "undefined"))
  ∧ coordinator w = coordinator w0
  ∧ length (communicator (coordinator w)) = 1%nat.
Proof. vm_compute. by split_and!. Qed.

(** ** Removal: claims C8, C9 *)

Section Removal.
Context `{Directory} `{NumberFormat}.

(** C8: [removeLoopFromSet] on an active loop completes: the loop leaves
    the active set for the dead set, its scope number goes to the end of
    the free list, and the program is compiled from that state.  On a
    loop that is not active, and so on the same loop a second time, it
    throws and changes nothing.  [delete] does the same. *)
Theorem removeLoopFromSet_cases (w : World) (r : Ref) (l : LiveLoopState) :
  heap w !! r = Some l ->
  valid_refs (heap w) (activeLoops (coordinator w)) ->
  valid_refs (heap w) (deadLoops (coordinator w)) ->
  let refused : Completion unit :=
    Throw (Error ("Loop tag " +:+ tag l +:+ " not present.")) in
  if decide (r ∈ activeLoops (coordinator w)) then
    let before := removed r l w in
    ∃ w', Coordinator.removeLoopFromSet r w = (Normal tt, w')
          ∧ w' = compiled before
          ∧ (r ∉ activeLoops (coordinator before))
          ∧ r ∈ deadLoops (coordinator before)
          ∧ freeScopeNums (coordinator w')
            = freeScopeNums (coordinator w) ++ [scopeNum l]
          ∧ (r ∉ activeLoops (coordinator w'))
          ∧ Coordinator.removeLoopFromSet r w' = (refused, w')
          ∧ LiveLoop.delete r w = (Normal tt, w')
          ∧ LiveLoop.delete r w' = (refused, w')
  else
    Coordinator.removeLoopFromSet r w = (refused, w)
    ∧ LiveLoop.delete r w = (refused, w).
Proof.
  intros E Ha Hd refused. destruct (decide _) as [Hr | Hr].
  - assert (Hgone : r ∉ set_delete r (activeLoops (coordinator w))).
    { unfold set_delete. rewrite list_elem_of_filter. by intros [Hne _]. }
    cbn zeta. exists (compiled (removed r l w)). split_and!.
    + by apply removeLoopFromSet_active.
    + reflexivity.
    + exact Hgone.
    + unfold removed, set_add. fields. case_decide; [done |].
      apply elem_of_app. right. by apply list_elem_of_singleton.
    + reflexivity.
    + exact Hgone.
    + by apply removeLoopFromSet_inactive.
    + by apply delete_active.
    + by apply delete_inactive.
  - split; [by apply removeLoopFromSet_inactive | by apply delete_inactive].
Qed.

(** C9, as the code has it: the setters make no check that the loop is
    still active.  On any loop object, removed or not, [setVolume]
    stores the clamped volume, and [nextEffect] and [prevEffect] move the
    effect index, regenerate the loop's text and make the coordinator
    compile and publish. *)
Theorem setters_ignore_removal (w : World) (r : Ref) (l : LiveLoopState) (v : float) :
  heap w !! r = Some l ->
  valid_refs (heap w) (activeLoops (coordinator w)) ->
  valid_refs (heap w) (deadLoops (coordinator w)) ->
  LiveLoop.setVolume r v w
    = (Normal tt, stored r (with_volume (LiveLoop.clamp v) l) w)
  ∧ LiveLoop.nextEffect r w = (Normal tt, compiled (stored r (moved 1 l) w))
  ∧ LiveLoop.prevEffect r w = (Normal tt, compiled (stored r (moved (-1) l) w)).
Proof.
  intros E Ha Hd.
  split_and!; [by apply setVolume_some | by apply nextEffect_some | by apply prevEffect_some].
Qed.

End Removal.

(** Removing the only loop, then removing it again. *)
Lemma removeLoopFromSet_cases_witness :
  let w := run [New "alpha"] fresh in
  let l := constructed "alpha" 0 (Some 2) in
  let refused : Completion unit :=
    Throw (Error ("Loop tag " +:+ tag l +:+ " not present.")) in
  if decide (0%nat ∈ activeLoops (coordinator w)) then
    let before := removed 0%nat l w in
    ∃ w', Coordinator.removeLoopFromSet 0%nat w = (Normal tt, w')
          ∧ w' = compiled before
          ∧ (0%nat ∉ activeLoops (coordinator before))
          ∧ 0%nat ∈ deadLoops (coordinator before)
          ∧ freeScopeNums (coordinator w')
            = freeScopeNums (coordinator w) ++ [scopeNum l]
          ∧ (0%nat ∉ activeLoops (coordinator w'))
          ∧ Coordinator.removeLoopFromSet 0%nat w' = (refused, w')
          ∧ LiveLoop.delete 0%nat w = (Normal tt, w')
          ∧ LiveLoop.delete 0%nat w' = (refused, w')
  else
    Coordinator.removeLoopFromSet 0%nat w = (refused, w)
    ∧ LiveLoop.delete 0%nat w = (refused, w).
Proof.
  apply (removeLoopFromSet_cases (run [New "alpha"] fresh) 0%nat
                                 (constructed "alpha" 0 (Some 2))).
  - reflexivity.
  - apply Forall_singleton. vm_compute. eauto.
  - apply Forall_nil_2.
Defined.

(** C9, refuted as stated: on a loop that has been deleted, [nextEffect],
    [prevEffect] and [setVolume] complete normally and change the state. *)
Lemma deleted_loop_is_still_mutated :
  let w := run [New "alpha"; Delete 0%nat] fresh in
  let next := LiveLoop.nextEffect 0%nat w in
  let prev := LiveLoop.prevEffect 0%nat w in
  let vol := LiveLoop.setVolume 0%nat 0.5%float w in
  activeLoops (coordinator w) = []
  ∧ effectNum <$> heap w !! 0%nat = Some (Int 0)
  ∧ volume <$> heap w !! 0%nat = Some 1%float
  ∧ next.1 = Normal tt
  ∧ effectNum <$> heap next.2 !! 0%nat = Some (Int 1)
  ∧ length (communicator (coordinator next.2))
    = S (length (communicator (coordinator w)))
  ∧ prev.1 = Normal tt
  ∧ effectNum <$> heap prev.2 !! 0%nat = Some (Int (-1))
  ∧ vol.1 = Normal tt
  ∧ volume <$> heap vol.2 !! 0%nat = Some 0.5%float.
Proof. vm_compute. by split_and!. Qed.

(** The setters on a loop that has been deleted. *)
Lemma setters_ignore_removal_witness :
  let w := run [New "alpha"; Delete 0%nat] fresh in
  let l := constructed "alpha" 0 (Some 2) in
  (0%nat ∉ activeLoops (coordinator w))
  ∧ LiveLoop.setVolume 0%nat 0.5%float w
    = (Normal tt, stored 0%nat (with_volume (LiveLoop.clamp 0.5%float) l) w)
  ∧ LiveLoop.nextEffect 0%nat w = (Normal tt, compiled (stored 0%nat (moved 1 l) w))
  ∧ LiveLoop.prevEffect 0%nat w = (Normal tt, compiled (stored 0%nat (moved (-1) l) w)).
Proof.
  split; [vm_compute; apply not_elem_of_nil |].
  apply (setters_ignore_removal (run [New "alpha"; Delete 0%nat] fresh) 0%nat
                                (constructed "alpha" 0 (Some 2)) 0.5%float).
  - reflexivity.
  - vm_compute. apply Forall_nil_2.
  - vm_compute. apply Forall_nil_2.
Defined.

(** * Further properties of the two classes *)

(** ** Failed calls, and what the coordinator keeps *)

Section CallOutcome.
Context `{Directory} `{NumberFormat}.

(** X1: a call that throws changes nothing at all.  The only exception of
    the code's own is [delete] on a loop that is not active; any other is
    a call through a reference to no object. *)
Theorem failed_call_changes_nothing (o : Op) (w : World) (e : JsError) :
  well_formed w ->
  (call o w).1 = Throw e ->
  (call o w).2 = w
  ∧ (e = TypeError
     ∨ ∃ r l, o = Delete r ∧ heap w !! r = Some l
              ∧ (r ∉ activeLoops (coordinator w))
              ∧ e = Error ("Loop tag " +:+ tag l +:+ " not present.")).
Proof.
  intros Hwf. pose proof (well_formed_valid_dead w Hwf) as Hd.
  destruct Hwf as (Ha & _ & _).
  destruct o as [name | r | r v | r | r]; cbn [call].
  - erewrite bind_normal by by apply new_created. intros [=].
  - destruct (heap w !! r) as [l |] eqn:E.
    + destruct (decide (r ∈ activeLoops (coordinator w))) as [Hr | Hr].
      * rewrite (delete_active r w l) by done. intros [=].
      * rewrite (delete_inactive r w l) by done. intros [= <-].
        split; [done |]. right. by exists r, l.
    + rewrite delete_none by done. intros [= <-]. by split; [| left].
  - destruct (heap w !! r) as [l |] eqn:E.
    + rewrite (setVolume_some r v w l) by done. intros [=].
    + unfold LiveLoop.setVolume. rewrite update_none by done.
      intros [= <-]. by split; [| left].
  - destruct (heap w !! r) as [l |] eqn:E.
    + rewrite (nextEffect_some r w l) by done. intros [=].
    + unfold LiveLoop.nextEffect. erewrite bind_throw by by apply update_none.
      intros [= <-]. by split; [| left].
  - destruct (heap w !! r) as [l |] eqn:E.
    + rewrite (prevEffect_some r w l) by done. intros [=].
    + unfold LiveLoop.prevEffect. erewrite bind_throw by by apply update_none.
      intros [= <-]. by split; [| left].
Qed.

(** X2: constructing a loop, a successful [delete], [nextEffect] and
    [prevEffect] each pass exactly one program to [runCode]; [setVolume]
    and a call that throws pass none.  Programs sent earlier stay as they
    were. *)
Theorem one_program_per_change (o : Op) (w : World) :
  well_formed w ->
  ∃ sent,
    communicator (coordinator (call o w).2) = communicator (coordinator w) ++ sent
    ∧ length sent
      = match o, (call o w).1 with
        | SetVolume _ _, _ => 0%nat
        | _, Throw _ => 0%nat
        | _, Normal _ => 1%nat
        end.
Proof.
  intros Hwf. pose proof (well_formed_valid_dead w Hwf) as Hd.
  destruct Hwf as (Ha & _ & _).
  destruct o as [name | r | r v | r | r]; cbn [call].
  - erewrite bind_normal by by apply new_created.
    eexists. split; [unfold compiled, created; fields; reflexivity | done].
  - destruct (heap w !! r) as [l |] eqn:E.
    + destruct (decide (r ∈ activeLoops (coordinator w))) as [Hr | Hr].
      * rewrite (delete_active r w l) by done.
        eexists. split; [unfold compiled, removed; fields; reflexivity | done].
      * rewrite (delete_inactive r w l) by done. exists []. by rewrite app_nil_r.
    + rewrite delete_none by done. exists []. by rewrite app_nil_r.
  - destruct (heap w !! r) as [l |] eqn:E.
    + rewrite (setVolume_some r v w l) by done. exists []. by rewrite app_nil_r.
    + unfold LiveLoop.setVolume. rewrite update_none by done.
      exists []. by rewrite app_nil_r.
  - destruct (heap w !! r) as [l |] eqn:E.
    + rewrite (nextEffect_some r w l) by done.
      eexists. split; [unfold compiled, stored; fields; reflexivity | done].
    + unfold LiveLoop.nextEffect. erewrite bind_throw by by apply update_none.
      exists []. by rewrite app_nil_r.
  - destruct (heap w !! r) as [l |] eqn:E.
    + rewrite (prevEffect_some r w l) by done.
      eexists. split; [unfold compiled, stored; fields; reflexivity | done].
    + unfold LiveLoop.prevEffect. erewrite bind_throw by by apply update_none.
      exists []. by rewrite app_nil_r.
Qed.

(** X3: [Coordinator.getRuby] returns the program last passed to [runCode],
    and [undefined] as long as none has been. *)
Theorem getRuby_is_last_program (ops : list Op) :
  let w := run ops fresh in
  Coordinator.getRuby w = (Normal (last (communicator (coordinator w))), w).
Proof.
  intros w. unfold Coordinator.getRuby, gets. do 2 f_equal.
  apply (run_invariant
           (λ w, coordOutputRuby (coordinator w) = last (communicator (coordinator w))));
    [| apply fresh_well_formed | reflexivity].
  clear. intros w w' _ Hw T.
  destruct T as [| name | r l E Hr | r l v E | r l k E];
    unfold compiled, stored; fields; try done; by rewrite last_snoc.
Qed.

Lemma StronglySorted_set_delete (r : Ref) (s : list Ref) :
  StronglySorted Nat.lt s -> StronglySorted Nat.lt (set_delete r s).
Proof.
  unfold set_delete. induction 1 as [| x s Hs IH Hx]; [constructor |].
  rewrite filter_cons. case_decide; [| done].
  constructor; [done |]. apply Forall_forall. intros y [_ Hy]%list_elem_of_filter.
  by eapply Forall_forall in Hx.
Qed.

(** X4: after any sequence of constructor, [delete], [setVolume],
    [nextEffect] and [prevEffect] calls, the active loops are kept in
    order of construction, and the program last sent is the wrapper around
    the header and the text each active loop now caches, in that order,
    followed by the stop blocks of loops that are not active.  Before the
    first program no loop is active. *)
Theorem last_program_matches_registry (ops : list Op) :
  let w := run ops fresh in
  StronglySorted Nat.lt (activeLoops (coordinator w))
  ∧ ((communicator (coordinator w) = [] ∧ activeLoops (coordinator w) = [])
     ∨ ∃ stopped,
         valid_refs (heap w) stopped
         ∧ (∀ r, r ∈ stopped -> r ∉ activeLoops (coordinator w))
         ∧ last (communicator (coordinator w))
           = Some (expected_program expected_header
                     (ruby_at (heap w) <$> activeLoops (coordinator w))
                     (tag_at (heap w) <$> stopped))).
Proof.
  intros w. split.
  - apply (run_invariant (λ w, StronglySorted Nat.lt (activeLoops (coordinator w))));
      [| apply fresh_well_formed | constructor].
    clear. intros w w' (Ha & _ & _) Hs T.
    destruct T as [| name | r l E Hr | r l v E | r l k E];
      unfold compiled, created, removed, stored; all_fields; try done.
    + apply StronglySorted_app_2; [| done | repeat constructor].
      intros x y Hx ->%list_elem_of_singleton. by eapply valid_refs_lt.
    + by apply StronglySorted_set_delete.
  - destruct (run_published_right ops) as (_ & _ & progs & Hex). fold w in Hex.
    destruct Hex as (Hc & Hv & _ & Hiff & _ & Hlast).
    destruct (last progs) as [p |] eqn:Hp.
    + right. exists p.2. cbn [from_option] in Hlast.
      assert (Hin : p ∈ progs).
      { rewrite last_lookup in Hp. by eapply list_elem_of_lookup_2. }
      split_and!.
      * eapply Forall_forall in Hv; [| exact Hin]. apply Hv.
      * intros r Hr. apply Hiff.
        apply list_elem_of_In, in_concat. exists p.2.
        split; [| by apply list_elem_of_In]. apply list_elem_of_In.
        apply list_elem_of_fmap. by exists p.
      * rewrite Hc, fmap_last, Hp. cbn [fmap option_fmap option_map]. f_equal.
        unfold text_of. by rewrite Hlast, cached_snd.
    + left. apply last_None in Hp. subst progs. cbn [from_option] in Hlast.
      split; [exact Hc |]. symmetry in Hlast. by apply fmap_nil_inv in Hlast.
Qed.

End CallOutcome.

(** ** What stays of a loop *)

Section LoopLife.
Context `{Directory} `{NumberFormat}.

(** X6: whatever is called afterwards, a loop object stays an object and
    keeps its tag, its id, its scope number and its [rawRuby]. *)
Theorem readonly_fields_kept (ops : list Op) (w : World) (r : Ref) (l : LiveLoopState) :
  well_formed w ->
  heap w !! r = Some l ->
  ∃ l', heap (run ops w) !! r = Some l'
        ∧ tag l' = tag l ∧ id l' = id l
        ∧ scopeNum l' = scopeNum l ∧ rawRuby l' = rawRuby l.
Proof.
  intros Hwf Hl.
  assert (Hk : keeps_readonly (heap w) (heap (run ops w))).
  { apply (run_invariant (λ w', keeps_readonly (heap w) (heap w'))); [| done |].
    - intros w1 w2 _ H1 T. eapply keeps_readonly_trans; [exact H1 |].
      by apply transition_keeps_readonly.
    - intros r' x Hx. by exists x. }
  by apply Hk.
Qed.

(** X7: a loop that is not active, such as a deleted one, is never made
    active again by any call. *)
Theorem deleted_loop_is_never_active_again (ops : list Op) (w : World) (r : Ref) :
  well_formed w ->
  is_Some (heap w !! r) ->
  r ∉ activeLoops (coordinator w) ->
  r ∉ activeLoops (coordinator (run ops w)).
Proof.
  intros Hwf Hs Hr.
  apply (run_invariant
           (λ w', is_Some (heap w' !! r) ∧ r ∉ activeLoops (coordinator w')));
    [| done | done].
  clear. intros w w' _ [Hs Hr] T.
  destruct T as [| name | r' l E Hr' | r' l v E | r' l k E];
    unfold compiled, created, removed, stored; fields.
  - done.
  - apply lookup_lt_is_Some in Hs. split.
    + apply lookup_lt_is_Some. rewrite length_app. cbn. lia.
    + rewrite not_elem_of_app, list_elem_of_singleton. split; [done | lia].
  - split; [done |]. unfold set_delete. rewrite list_elem_of_filter. tauto.
  - split; [| done]. by rewrite lookup_lt_is_Some, length_insert, <- lookup_lt_is_Some.
  - split; [| done]. by rewrite lookup_lt_is_Some, length_insert, <- lookup_lt_is_Some.
Qed.

Lemma pretty_N_char_no_underscore (x : N) : pretty_N_char x ≠ "_"%char.
Proof. unfold pretty_N_char. by repeat case_match. Qed.

Lemma pretty_N_go_no_underscore (x : N) :
  ∀ s, no_underscore s -> no_underscore (pretty_N_go x s).
Proof.
  induction (N.lt_wf_0 x) as [x _ IH]. intros s Hs.
  destruct (decide (x = 0)%N) as [-> | Hx]; [by rewrite pretty_N_go_0 |].
  rewrite pretty_N_go_step by lia. apply IH.
  - apply N.div_lt; lia.
  - split; [apply pretty_N_char_no_underscore | exact Hs].
Qed.

Lemma pretty_Z_no_underscore (z : Z) : 0 <= z -> no_underscore (pretty z).
Proof.
  intros Hz. destruct z as [| p | p]; [by cbn | | lia].
  unfold pretty, pretty_Z, pretty, pretty_positive, pretty, pretty_N.
  rewrite decide_False by done. by apply pretty_N_go_no_underscore.
Qed.

(** Two texts are equal up to their first [_] when what they start is. *)
Lemma before_underscore_inj (a b s t : string) :
  no_underscore a -> no_underscore b ->
  a +:+ "_" +:+ s = b +:+ "_" +:+ t -> a = b.
Proof.
  revert b. induction a as [| c a IH]; intros [| d b] Ha Hb E.
  - done.
  - injection E as E _. destruct Hb as [Hd _]. by destruct Hd.
  - injection E as E _. destruct Ha as [Hc _]. by destruct Hc.
  - injection E as -> E. f_equal. destruct Ha, Hb. by apply IH.
Qed.

Lemma js_succ_min (n : nat) :
  js_succ (Z.min (Z.of_nat n) (2 ^ 53)) = Z.min (Z.of_nat (S n)) (2 ^ 53).
Proof. unfold js_succ. case_match; lia. Qed.

Lemma transition_ids_counted (w w' : World) :
  ids_counted w -> transition w w' -> ids_counted w'.
Proof.
  intros [Hn Hl] T.
  destruct T as [| name | r l E Hr | r l v E | r l k E];
    unfold ids_counted, compiled, created, removed, stored; fields.
  - done.
  - split.
    + rewrite Hn, length_app, js_succ_min. cbn [length]. f_equal. lia.
    + intros r x [Hx | [Hlen Hx]]%lookup_app_Some; [by apply Hl |].
      apply list_lookup_singleton_Some in Hx as [Hr <-].
      unfold constructed, regenerated, with_outputRuby. cbn [id tag].
      split; [| by exists name]. rewrite Hn. f_equal. lia.
  - done.
  - split; [by rewrite length_insert |]. intros r' x Hx.
    destruct (decide (r = r')) as [<- | Hne].
    + rewrite list_lookup_insert_eq in Hx by by eapply lookup_lt_Some.
      injection Hx as <-. exact (Hl _ _ E).
    + rewrite list_lookup_insert_ne in Hx by done. by apply Hl.
  - split; [by rewrite length_insert |]. intros r' x Hx.
    destruct (decide (r = r')) as [<- | Hne].
    + rewrite list_lookup_insert_eq in Hx by by eapply lookup_lt_Some.
      injection Hx as <-. exact (Hl _ _ E).
    + rewrite list_lookup_insert_ne in Hx by done. by apply Hl.
Qed.

Lemma run_ids_counted (ops : list Op) : ids_counted (run ops fresh).
Proof.
  apply (run_invariant ids_counted);
    [intros; by eapply transition_ids_counted | apply fresh_well_formed |].
  split; [reflexivity |]. intros r l Hl. cbn [fresh heap] in Hl.
  by rewrite lookup_nil in Hl.
Qed.

Lemma ids_named_new (names : list LiveLoopName) (name : LiveLoopName) (w : World) :
  ids_named names w -> ids_named (names ++ [name]) (compiled (created name w)).
Proof.
  intros (Hn & Hlen & Hl). unfold ids_named, compiled, created. all_fields.
  split_and!.
  - rewrite Hn, length_app, js_succ_min. cbn [length]. f_equal. lia.
  - rewrite !length_app. cbn [length]. lia.
  - intros r x [Hx | [Hr Hx]]%lookup_app_Some.
    + destruct (Hl r x Hx) as (Hid & n & Hn' & Ht). split; [exact Hid |].
      exists n. split; [by apply lookup_app_l_Some | exact Ht].
    + apply list_lookup_singleton_Some in Hx as [Hr' <-].
      unfold constructed, regenerated, with_outputRuby. cbn [id tag].
      split; [rewrite Hn; f_equal; lia |]. exists name. split; [| done].
      apply list_lookup_middle. unfold LiveLoopName in *. lia.
Qed.

Lemma ids_named_transition (names : list LiveLoopName) (w w' : World) :
  ids_named names w -> transition w w' ->
  length (heap w') = length (heap w) -> ids_named names w'.
Proof.
  intros (Hn & Hlen & Hl) T.
  destruct T as [| name | r l E Hr | r l v E | r l k E];
    unfold ids_named, compiled, created, removed, stored; all_fields.
  - done.
  - rewrite length_app. cbn [length]. lia.
  - done.
  - intros _. split_and!; [by rewrite length_insert | by rewrite length_insert |].
    intros r' x Hx. destruct (decide (r = r')) as [<- | Hne].
    + rewrite list_lookup_insert_eq in Hx by by eapply lookup_lt_Some.
      injection Hx as <-. exact (Hl _ _ E).
    + rewrite list_lookup_insert_ne in Hx by done. by apply Hl.
  - intros _. split_and!; [by rewrite length_insert | by rewrite length_insert |].
    intros r' x Hx. destruct (decide (r = r')) as [<- | Hne].
    + rewrite list_lookup_insert_eq in Hx by by eapply lookup_lt_Some.
      injection Hx as <-. exact (Hl _ _ E).
    + rewrite list_lookup_insert_ne in Hx by done. by apply Hl.
Qed.

Lemma call_ids_named (names : list LiveLoopName) (o : Op) (w : World) :
  well_formed w -> ids_named names w ->
  ids_named (names ++ names_of [o]) (call o w).2.
Proof.
  intros Hwf Hi. pose proof (well_formed_valid_dead w Hwf) as Hd.
  destruct Hwf as (Ha & _ & _).
  destruct o as [name | r | r v | r | r]; cbn [call names_of omap list_omap];
    rewrite ?app_nil_r.
  - erewrite bind_normal by by apply new_created. by apply ids_named_new.
  - destruct (heap w !! r) as [l |] eqn:E.
    + destruct (decide (r ∈ activeLoops (coordinator w))) as [Hr | Hr].
      * rewrite (delete_active r w l) by done.
        by apply (ids_named_transition names w); [| apply t_delete |].
      * by rewrite (delete_inactive r w l) by done.
    + by rewrite delete_none by done.
  - destruct (heap w !! r) as [l |] eqn:E.
    + rewrite (setVolume_some r v w l) by done.
      apply (ids_named_transition names w); [done | by apply t_volume |].
      cbn [snd]. unfold stored. all_fields. by rewrite length_insert.
    + unfold LiveLoop.setVolume. by rewrite update_none by done.
  - destruct (heap w !! r) as [l |] eqn:E.
    + rewrite (nextEffect_some r w l) by done.
      apply (ids_named_transition names w); [done | by apply t_effect |].
      cbn [snd]. unfold compiled, stored. all_fields. by rewrite length_insert.
    + unfold LiveLoop.nextEffect. by erewrite bind_throw by by apply update_none.
  - destruct (heap w !! r) as [l |] eqn:E.
    + rewrite (prevEffect_some r w l) by done.
      apply (ids_named_transition names w); [done | by apply t_effect |].
      cbn [snd]. unfold compiled, stored. all_fields. by rewrite length_insert.
    + unfold LiveLoop.prevEffect. by erewrite bind_throw by by apply update_none.
Qed.

Lemma run_ids_named (ops : list Op) :
  ∀ names w, well_formed w -> ids_named names w ->
             ids_named (names ++ names_of ops) (run ops w).
Proof.
  induction ops as [| o ops IH]; intros names w Hwf Hi.
  - cbn [names_of omap list_omap run]. by rewrite app_nil_r.
  - cbn [run].
    replace (names ++ names_of (o :: ops))
      with ((names ++ names_of [o]) ++ names_of ops).
    + apply IH; [| by apply call_ids_named].
      eapply transition_well_formed; [exact Hwf |].
      apply call_transition; [apply Hwf | by apply well_formed_valid_dead].
    + rewrite <- app_assoc. f_equal. by destruct o.
Qed.

(** X8: [idCount] is the number of loops constructed, and the loop
    constructed as the [r]-th (from 0) has id [r] and the tag made of
    [loop_], that id, [_] and the name the [r]-th constructor call was
    given; both numbers up to [2^53], where the counter stops moving. *)
Theorem ids_count_constructions (ops : list Op) :
  let w := run ops fresh in
  idCount w = Z.min (Z.of_nat (length (heap w))) (2 ^ 53)
  ∧ length (heap w) = length (names_of ops)
  ∧ ∀ r l, heap w !! r = Some l ->
      id l = Z.min (Z.of_nat r) (2 ^ 53)
      ∧ ∃ name, names_of ops !! r = Some name
                ∧ tag l = "loop_" +:+ pretty (id l) +:+ "_" +:+ name.
Proof.
  apply (run_ids_named ops [] fresh fresh_well_formed).
  split_and!; [reflexivity | reflexivity |].
  intros r l Hl. cbn [fresh heap] in Hl. by rewrite lookup_nil in Hl.
Qed.

(** X9: as long as no more than [2^53] loops have been constructed, two
    different loops have different tags, also when they have the same
    name. *)
Theorem tags_are_distinct (ops : list Op) (r1 r2 : Ref) (l1 l2 : LiveLoopState) :
  let w := run ops fresh in
  Z.of_nat (length (heap w)) <= 2 ^ 53 ->
  heap w !! r1 = Some l1 ->
  heap w !! r2 = Some l2 ->
  r1 ≠ r2 ->
  tag l1 ≠ tag l2.
Proof.
  intros w Hlen H1 H2 Hne Htag.
  destruct (run_ids_counted ops) as [_ Hids]. fold w in Hids.
  destruct (Hids r1 l1 H1) as (Hid1 & n1 & Ht1).
  destruct (Hids r2 l2 H2) as (Hid2 & n2 & Ht2).
  apply lookup_lt_Some in H1, H2.
  rewrite Ht1, Ht2 in Htag.
  apply (inj (String.append "loop_")) in Htag.
  apply before_underscore_inj in Htag.
  - apply (inj pretty) in Htag. lia.
  - apply pretty_Z_no_underscore. lia.
  - apply pretty_Z_no_underscore. lia.
Qed.

End LoopLife.

(** ** Scope numbers, effects and volume of every loop *)

Section LoopValues.
Context `{Directory} `{NumberFormat}.

(** X10: over any run no scope number is lost or handed out twice: the
    numbers in the free list together with the numbers held by the active
    loops are the numbers 2..127, each once; so free and held numbers
    always count 126. *)
Theorem scope_numbers_conserved (ops : list Op) :
  let w := run ops fresh in
  numbers (freeScopeNums (coordinator w))
    ++ omap (chan_at (heap w)) (activeLoops (coordinator w))
  ≡ₚ all_scopes
  ∧ (length (numbers (freeScopeNums (coordinator w)))
     + length (omap (chan_at (heap w)) (activeLoops (coordinator w))) = 126)%nat.
Proof.
  intros w. pose proof (run_channels ops) as Hacc. fold w in Hacc.
  split; [exact Hacc |].
  rewrite <- length_app. unfold channels_accounted in Hacc. rewrite Hacc.
  unfold all_scopes. by rewrite length_fmap, length_seq.
Qed.

Lemma transition_scopes_in_range (w w' : World) :
  scopes_in_range w -> transition w w' -> scopes_in_range w'.
Proof.
  intros [Hp Hl] T.
  destruct T as [| name | r l E Hr | r l v E | r l k E];
    unfold scopes_in_range, compiled, created, removed, stored; fields.
  - done.
  - split.
    + destruct (freeScopeNums (coordinator w)) as [| c p]; [done |].
      by apply Forall_cons in Hp as [_ ?].
    + intros r x [Hx | [_ Hx]]%lookup_app_Some; [by eapply Hl |].
      apply list_lookup_singleton_Some in Hx as [_ <-].
      unfold constructed, regenerated, with_outputRuby, shifted. cbn [scopeNum].
      destruct (freeScopeNums (coordinator w)) as [| c p]; [done |].
      by apply Forall_cons in Hp as [? _].
  - split; [| done]. apply Forall_app. split; [done |].
    apply Forall_singleton. by eapply Hl.
  - split; [done |]. intros r' x Hx.
    destruct (decide (r = r')) as [<- | Hne].
    + rewrite list_lookup_insert_eq in Hx by by eapply lookup_lt_Some.
      injection Hx as <-. exact (Hl _ _ E).
    + rewrite list_lookup_insert_ne in Hx by done. by eapply Hl.
  - split; [done |]. intros r' x Hx.
    destruct (decide (r = r')) as [<- | Hne].
    + rewrite list_lookup_insert_eq in Hx by by eapply lookup_lt_Some.
      injection Hx as <-. exact (Hl _ _ E).
    + rewrite list_lookup_insert_ne in Hx by done. by eapply Hl.
Qed.

Lemma fresh_scopes_in_range : scopes_in_range fresh.
Proof.
  split.
  - change (Forall scope_value Coordinator.initial_scopes).
    unfold Coordinator.initial_scopes. apply Forall_fmap, Forall_forall.
    intros k Hk%elem_of_seq. cbn. lia.
  - intros r l Hl. cbn [fresh heap] in Hl. by rewrite lookup_nil in Hl.
Qed.

(** X11: every entry of the free list and the scope number of every loop,
    active or deleted, is [undefined] or a number within 2..127.  So
    [getScopeNum] never returns [GLOBAL_OSCILLOSCOPE_INDEX]: no loop's
    oscilloscope data is read at the global index. *)
Theorem scope_is_never_global (ops : list Op) :
  let w := run ops fresh in
  Forall scope_value (freeScopeNums (coordinator w))
  ∧ ∀ r l, heap w !! r = Some l ->
      scope_value (scopeNum l)
      ∧ scopeNum l ≠ Some Coordinator.GLOBAL_OSCILLOSCOPE_INDEX
      ∧ LiveLoop.getScopeNum r w = (Normal (scopeNum l), w).
Proof.
  intros w.
  assert (Hin : scopes_in_range w).
  { apply (run_invariant scopes_in_range);
      [intros; by eapply transition_scopes_in_range | apply fresh_well_formed
      | apply fresh_scopes_in_range]. }
  destruct Hin as [Hp Hl]. split; [exact Hp |]. intros r l E.
  pose proof (Hl r l E) as Hv. split_and!; [exact Hv | |].
  - intros Heq. rewrite Heq in Hv. cbn in Hv.
    unfold Coordinator.GLOBAL_OSCILLOSCOPE_INDEX in Hv. lia.
  - unfold LiveLoop.getScopeNum. by erewrite bind_normal by by apply deref_some.
Qed.

(** A property of loop objects that the constructor establishes and the
    setters keep holds of every loop of every run. *)
Lemma heap_invariant (P : LiveLoopState -> Prop) :
  (∀ loopName n scope, P (constructed loopName n scope)) ->
  (∀ l v, P l -> P (with_volume (LiveLoop.clamp v) l)) ->
  (∀ l k, P l -> P (moved k l)) ->
  ∀ ops r l, heap (run ops fresh) !! r = Some l -> P l.
Proof.
  intros Hnew Hvol Hmove ops.
  apply (run_invariant (λ w, ∀ r l, heap w !! r = Some l -> P l));
    [| apply fresh_well_formed |].
  - clear ops. intros w w' _ Hw T.
    destruct T as [| name | r l E Hr | r l v E | r l k E];
      unfold compiled, created, removed, stored; fields; intros r' x Hx.
    + by eapply Hw.
    + apply lookup_app_Some in Hx as [Hx | [_ Hx]]; [by eapply Hw |].
      apply list_lookup_singleton_Some in Hx as [_ <-]. apply Hnew.
    + by eapply Hw.
    + destruct (decide (r = r')) as [<- | Hne].
      * rewrite list_lookup_insert_eq in Hx by by eapply lookup_lt_Some.
        injection Hx as <-. apply Hvol. by eapply Hw.
      * rewrite list_lookup_insert_ne in Hx by done. by eapply Hw.
    + destruct (decide (r = r')) as [<- | Hne].
      * rewrite list_lookup_insert_eq in Hx by by eapply lookup_lt_Some.
        injection Hx as <-. apply Hmove. by eapply Hw.
      * rewrite list_lookup_insert_ne in Hx by done. by eapply Hw.
  - intros r l Hl. cbn [fresh heap] in Hl. by rewrite lookup_nil in Hl.
Qed.

(** X12: the effect a loop holds is always the directory's entry for the
    index it holds: [getEffectData()] is [getEffect(getEffectNum())]. *)
Theorem effect_follows_index (ops : list Op) (r : Ref) (l : LiveLoopState) :
  let w := run ops fresh in
  heap w !! r = Some l ->
  effectData l = getEffect (effectNum l)
  ∧ (d <- LiveLoop.getEffectData r ;; n <- LiveLoop.getEffectNum r ;;
     ret (d, getEffect n)) w
    = (Normal (effectData l, effectData l), w).
Proof.
  intros w Hl.
  assert (Hf : effectData l = getEffect (effectNum l)).
  { revert ops r l w Hl. cbn zeta.
    apply (heap_invariant (λ l, effectData l = getEffect (effectNum l))); done. }
  split; [exact Hf |].
  unfold LiveLoop.getEffectData, LiveLoop.getEffectNum.
  rewrite bind_assoc. erewrite bind_normal by by apply deref_some.
  rewrite bind_ret, bind_assoc. erewrite bind_normal by by apply deref_some.
  rewrite bind_ret. unfold ret. by rewrite <- Hf.
Qed.

(** X13: with at least one effect in the directory, the effect index of a
    loop is always an integer strictly between minus the number of effects
    and the number of effects: never too large, but possibly negative. *)
Theorem effect_index_bounded (ops : list Op) (r : Ref) (l : LiveLoopState) :
  let w := run ops fresh in
  1 <= LiveLoop.numOfEffects ->
  heap w !! r = Some l ->
  ∃ e, effectNum l = Int e
       ∧ - LiveLoop.numOfEffects < e < LiveLoop.numOfEffects.
Proof.
  intros w Hn. revert ops r l w. cbn zeta.
  apply (heap_invariant
           (λ l, ∃ e, effectNum l = Int e
                      ∧ - LiveLoop.numOfEffects < e < LiveLoop.numOfEffects)).
  - intros. exists 0. split; [reflexivity | lia].
  - intros l v He. exact He.
  - intros l k (e & He & _). unfold moved, regenerated, with_outputRuby, with_effect.
    cbn [effectNum]. rewrite He. cbn [js_add js_rem].
    destruct (LiveLoop.numOfEffects =? 0) eqn:En; [lia |].
    eexists. split; [reflexivity |].
    pose proof (Z.rem_bound_abs (e + k) LiveLoop.numOfEffects). lia.
Qed.

Lemma SFcompare_antisym (x y : spec_float) :
  SFcompare y x = option_map CompOpp (SFcompare x y).
Proof.
  destruct x as [s1 | s1 | | s1 m1 e1], y as [s2 | s2 | | s2 m2 e2];
    try reflexivity; try (by destruct s1); try (by destruct s2);
    try (by destruct s1, s2).
  unfold SFcompare. rewrite (Z.compare_antisym e1 e2).
  rewrite !Pos.compare_cont_spec. unfold Pos.switch_Eq.
  rewrite (Pos.compare_antisym m1 m2).
  destruct s1, s2; try reflexivity;
    destruct (e1 ?= e2); try reflexivity;
    destruct (m1 ?= m2)%positive; reflexivity.
Qed.

Lemma SFcompare_None (x y : spec_float) :
  SFcompare x y = None -> x = S754_nan ∨ y = S754_nan.
Proof.
  destruct x as [s1 | s1 | | s1 m1 e1], y as [s2 | s2 | | s2 m2 e2];
    intros E; try discriminate E; auto.
Qed.

Lemma SFcompare_nan_r (x : spec_float) : SFcompare x S754_nan = None.
Proof. by destruct x. Qed.

Lemma SFeqb_refl_false (x : spec_float) : SFeqb x x = false -> x = S754_nan.
Proof.
  unfold SFeqb. destruct (SFcompare x x) as [c |] eqn:C.
  - pose proof (SFcompare_antisym x x) as Ha. rewrite C in Ha.
    injection Ha as Ha. by destruct c.
  - intros _. by destruct (SFcompare_None x x C).
Qed.

Lemma is_nan_spec (v : float) : is_nan v = true -> Prim2SF v = S754_nan.
Proof.
  unfold is_nan. rewrite FloatAxioms.eqb_spec. intros Hn. apply SFeqb_refl_false.
  by destruct (SFeqb _ _).
Qed.

Lemma clamp_nan (v : float) : is_nan v = true -> LiveLoop.clamp v = v.
Proof.
  intros Hn%is_nan_spec. unfold LiveLoop.clamp.
  rewrite !FloatAxioms.ltb_spec, Hn. unfold SFltb.
  by rewrite SFcompare_nan_r.
Qed.

Lemma clamp_volume_value (v : float) : volume_value (LiveLoop.clamp v).
Proof.
  unfold LiveLoop.clamp, volume_value.
  destruct (v <? 0)%float eqn:E1; [right; split; reflexivity |].
  destruct (1 <? v)%float eqn:E2; [right; split; reflexivity |].
  unfold is_nan. rewrite FloatAxioms.eqb_spec, !FloatAxioms.leb_spec.
  rewrite FloatAxioms.ltb_spec in E1, E2.
  assert (H0nan : Prim2SF 0 ≠ S754_nan) by (intros E; vm_compute in E; discriminate E).
  assert (H1nan : Prim2SF 1 ≠ S754_nan) by (intros E; vm_compute in E; discriminate E).
  generalize dependent (Prim2SF 1). generalize dependent (Prim2SF 0).
  generalize (Prim2SF v). clear v. intros x z E1 Hz o E2 Ho.
  unfold SFltb, SFleb, SFeqb in *.
  rewrite (SFcompare_antisym x z). rewrite (SFcompare_antisym o x) in *.
  destruct (SFcompare x z) as [c1 |] eqn:C1.
  - destruct (SFcompare o x) as [c2 |] eqn:C2.
    + right. destruct c1, c2; try discriminate; split; reflexivity.
    + destruct (SFcompare_None o x C2) as [-> | ->]; [done |].
      discriminate C1.
  - destruct (SFcompare_None x z C1) as [-> | ->]; [| done].
    left. reflexivity.
Qed.
(** X15: the volume of a loop is always [NaN] or a number from 0 to 1,
    whatever was passed to [setVolume]; and [NaN] passed to [setVolume] is
    what [setVolume] stores. *)
Theorem volume_stays_clamped (ops : list Op) (r : Ref) (l : LiveLoopState) :
  let w := run ops fresh in
  heap w !! r = Some l ->
  volume_value (volume l)
  ∧ (∀ v, is_nan v = true -> LiveLoop.clamp v = v).
Proof.
  intros w Hl. split; [| apply clamp_nan].
  revert ops r l w Hl. cbn zeta.
  apply (heap_invariant (λ l, volume_value (volume l))).
  - intros. right. by split.
  - intros l v _. apply clamp_volume_value.
  - intros l k Hv. exact Hv.
Qed.

End LoopValues.

(** ** Calls one after the other *)

Section Compositions.
Context `{Directory} `{NumberFormat}.

(** X16: the volume set by [setVolume] shows in the loop's text and in the
    program once the loop is regenerated: by [generateAndPushRuby], or by
    [nextEffect], which keeps the volume. *)
Theorem volume_shows_after_push (w : World) (r : Ref) (l : LiveLoopState) (v : float) :
  heap w !! r = Some l ->
  valid_refs (heap w) (activeLoops (coordinator w)) ->
  valid_refs (heap w) (deadLoops (coordinator w)) ->
  let shown := regenerated (with_volume (LiveLoop.clamp v) l) in
  (LiveLoop.setVolume r v ;; LiveLoop.generateAndPushRuby r) w
    = (Normal tt, compiled (stored r shown w))
  ∧ outputRuby shown
    = Some (declaration (tag l) (js_int_str (scopeNum l))
                        (Number_toString (LiveLoop.clamp v))
                        (name (effectData l)) (js_str (rawRuby l)))
  ∧ (LiveLoop.setVolume r v ;; LiveLoop.nextEffect r) w
    = (Normal tt, compiled (stored r (moved 1 (with_volume (LiveLoop.clamp v) l)) w))
  ∧ volume (moved 1 (with_volume (LiveLoop.clamp v) l)) = LiveLoop.clamp v.
Proof.
  intros E Ha Hd shown. split_and!.
  - erewrite bind_normal by by apply setVolume_some.
    erewrite generateAndPushRuby_some;
      [| by eapply stored_lookup
       | unfold stored; fields; by apply valid_refs_insert
       | unfold stored; fields; by apply valid_refs_insert ].
    by rewrite stored_stored.
  - reflexivity.
  - erewrite bind_normal by by apply setVolume_some.
    erewrite nextEffect_some;
      [| by eapply stored_lookup
       | unfold stored; fields; by apply valid_refs_insert
       | unfold stored; fields; by apply valid_refs_insert ].
    by rewrite stored_stored.
  - reflexivity.
Qed.

Lemma move_twice (k1 k2 : Z) (r : Ref) (w : World) (l : LiveLoopState) :
  heap w !! r = Some l ->
  valid_refs (heap w) (activeLoops (coordinator w)) ->
  valid_refs (heap w) (deadLoops (coordinator w)) ->
  let step k :=
    (update r (λ l, let n := js_rem (js_add (effectNum l) k) LiveLoop.numOfEffects in
                    with_effect n (getEffect n) l) ;;
     LiveLoop.generateAndPushRuby r) in
  ∃ w', (step k1 ;; step k2) w = (Normal tt, w')
        ∧ heap w' !! r = Some (moved k2 (moved k1 l)).
Proof.
  intros E Ha Hd step. unfold step.
  eexists. split.
  - erewrite bind_normal by by apply move_effect_some.
    apply move_effect_some.
    + unfold compiled. fields. by eapply stored_lookup.
    + unfold compiled, stored. fields. by apply valid_refs_insert.
    + unfold compiled. fields. apply Forall_nil_2.
  - unfold compiled, stored. fields. rewrite list_insert_insert_eq.
    apply list_lookup_insert_eq. by eapply lookup_lt_Some.
Qed.

(** X17: from any index within the directory, [prevEffect] then
    [nextEffect] brings the loop back to the index, to the effect of that
    index and to the text it has with that effect; also from index 0,
    where the index in between is -1. *)
Theorem prevEffect_then_nextEffect_restores
        (w : World) (r : Ref) (l : LiveLoopState) (i : Z) :
  heap w !! r = Some l ->
  valid_refs (heap w) (activeLoops (coordinator w)) ->
  valid_refs (heap w) (deadLoops (coordinator w)) ->
  effectNum l = Int i ->
  0 <= i < LiveLoop.numOfEffects ->
  ∃ w' l', (LiveLoop.prevEffect r ;; LiveLoop.nextEffect r) w = (Normal tt, w')
           ∧ heap w' !! r = Some l'
           ∧ effectNum l' = Int i
           ∧ effectData l' = getEffect (Int i)
           ∧ outputRuby l'
             = outputRuby (regenerated (with_effect (Int i) (getEffect (Int i)) l)).
Proof.
  intros E Ha Hd Hi Hrange.
  destruct (move_twice (-1) 1 r w l E Ha Hd) as (w' & Hrun & Hl').
  exists w', (moved 1 (moved (-1) l)). split; [exact Hrun |]. split; [exact Hl' |].
  assert (Hn : effectNum (moved 1 (moved (-1) l)) = Int i).
  { unfold moved at 1. unfold regenerated, with_outputRuby, with_effect. cbn [effectNum].
    unfold moved, regenerated, with_outputRuby, with_effect. cbn [effectNum].
    rewrite Hi. apply prev_then_next; lia. }
  assert (Hd' : effectData (moved 1 (moved (-1) l)) = getEffect (Int i)).
  { rewrite <- Hn. reflexivity. }
  split_and!; [exact Hn | exact Hd' |].
  unfold moved, regenerated, with_outputRuby, with_effect, LiveLoop.ruby_of.
  cbn [outputRuby rawRuby effectData volume scopeNum tag effectNum].
  rewrite Hi. rewrite prev_then_next by lia. reflexivity.
Qed.

(** X18: from any index within the directory but the last, [nextEffect]
    then [prevEffect] brings the loop back to the index and to the effect
    of that index. *)
Theorem nextEffect_then_prevEffect_restores
        (w : World) (r : Ref) (l : LiveLoopState) (i : Z) :
  heap w !! r = Some l ->
  valid_refs (heap w) (activeLoops (coordinator w)) ->
  valid_refs (heap w) (deadLoops (coordinator w)) ->
  effectNum l = Int i ->
  0 <= i ->
  i + 1 < LiveLoop.numOfEffects ->
  ∃ w' l', (LiveLoop.nextEffect r ;; LiveLoop.prevEffect r) w = (Normal tt, w')
           ∧ heap w' !! r = Some l'
           ∧ effectNum l' = Int i
           ∧ effectData l' = getEffect (Int i).
Proof.
  intros E Ha Hd Hi H0i Hrange.
  destruct (move_twice 1 (-1) r w l E Ha Hd) as (w' & Hrun & Hl').
  exists w', (moved (-1) (moved 1 l)). split; [exact Hrun |]. split; [exact Hl' |].
  assert (Hn : effectNum (moved (-1) (moved 1 l)) = Int i).
  { unfold moved at 1. unfold regenerated, with_outputRuby, with_effect. cbn [effectNum].
    unfold moved, regenerated, with_outputRuby, with_effect. cbn [effectNum].
    rewrite Hi. by apply next_then_prev. }
  split; [exact Hn |]. rewrite <- Hn. reflexivity.
Qed.

End Compositions.

(** ** The further properties on small runs *)

(** A second [delete] of the only loop. *)
Lemma failed_call_changes_nothing_witness :
  let w := run [New "alpha"; Delete 0%nat] fresh in
  let e := Error "Loop tag loop_0_alpha not present." in
  (call (Delete 0%nat) w).1 = Throw e
  ∧ (call (Delete 0%nat) w).2 = w
  ∧ (e = TypeError
     ∨ ∃ r l, Delete 0%nat = Delete r ∧ heap w !! r = Some l
              ∧ (r ∉ activeLoops (coordinator w))
              ∧ e = Error ("Loop tag " +:+ tag l +:+ " not present.")).
Proof.
  intros w e.
  assert (E : (call (Delete 0%nat) w).1 = Throw e) by (vm_compute; reflexivity).
  split; [exact E |].
  apply (failed_call_changes_nothing (Delete 0%nat) w e);
    [apply run_well_formed | exact E].
Defined.

(** [nextEffect] on the only loop. *)
Lemma one_program_per_change_witness :
  let w := run [New "alpha"] fresh in
  ∃ sent,
    communicator (coordinator (call (NextEffect 0%nat) w).2)
    = communicator (coordinator w) ++ sent
    ∧ length sent
      = match NextEffect 0%nat, (call (NextEffect 0%nat) w).1 with
        | SetVolume _ _, _ => 0%nat
        | _, Throw _ => 0%nat
        | _, Normal _ => 1%nat
        end.
Proof.
  intros w. apply (one_program_per_change (NextEffect 0%nat) w).
  apply run_well_formed.
Defined.

(** A loop through a change of volume, a change of effect and its removal. *)
Lemma readonly_fields_kept_witness :
  let w := run [New "alpha"] fresh in
  let l := constructed "alpha" 0 (Some 2) in
  ∃ l', heap (run [SetVolume 0%nat 0.5%float; NextEffect 0%nat; Delete 0%nat] w)
          !! 0%nat = Some l'
        ∧ tag l' = tag l ∧ id l' = id l
        ∧ scopeNum l' = scopeNum l ∧ rawRuby l' = rawRuby l.
Proof.
  intros w l.
  apply (readonly_fields_kept
           [SetVolume 0%nat 0.5%float; NextEffect 0%nat; Delete 0%nat] w 0%nat l).
  - apply run_well_formed.
  - reflexivity.
Defined.

(** A deleted loop, a new loop and a change of effect of the deleted one. *)
Lemma deleted_loop_is_never_active_again_witness :
  let w := run [New "alpha"; Delete 0%nat] fresh in
  0%nat ∉ activeLoops (coordinator (run [New "beta"; NextEffect 0%nat] w)).
Proof.
  intros w.
  apply (deleted_loop_is_never_active_again [New "beta"; NextEffect 0%nat] w 0%nat).
  - apply run_well_formed.
  - vm_compute. eauto.
  - vm_compute. apply not_elem_of_nil.
Defined.

(** The second of two loops, a change of volume between them. *)
Lemma ids_count_constructions_witness :
  let ops := [New "alpha"; SetVolume 0%nat 0.5%float; New "beta"] in
  let w := run ops fresh in
  let l := constructed "beta" 1 (Some 3) in
  heap w !! 1%nat = Some l
  ∧ idCount w = Z.min (Z.of_nat (length (heap w))) (2 ^ 53)
  ∧ length (heap w) = length (names_of ops)
  ∧ id l = Z.min (Z.of_nat 1) (2 ^ 53)
  ∧ ∃ name, names_of ops !! 1%nat = Some name
            ∧ tag l = "loop_" +:+ pretty (id l) +:+ "_" +:+ name.
Proof.
  intros ops w l.
  destruct (ids_count_constructions ops) as (Hn & Hlen & Hl).
  split; [reflexivity |]. split; [exact Hn |]. split; [exact Hlen |].
  apply (Hl 1%nat l). reflexivity.
Defined.

(** Two loops of the same name. *)
Lemma tags_are_distinct_witness :
  let w := run [New "alpha"; New "alpha"] fresh in
  tag <$> heap w !! 0%nat = Some "loop_0_alpha"
  ∧ tag <$> heap w !! 1%nat = Some "loop_1_alpha"
  ∧ tag (constructed "alpha" 0 (Some 2)) ≠ tag (constructed "alpha" 1 (Some 3)).
Proof.
  split; [reflexivity |]. split; [reflexivity |].
  apply (tags_are_distinct [New "alpha"; New "alpha"] 0%nat 1%nat).
  - vm_compute. discriminate.
  - reflexivity.
  - reflexivity.
  - discriminate.
Defined.

(** The first loop. *)
Lemma scope_is_never_global_witness :
  let w := run [New "alpha"] fresh in
  let l := constructed "alpha" 0 (Some 2) in
  scope_value (scopeNum l)
  ∧ scopeNum l ≠ Some Coordinator.GLOBAL_OSCILLOSCOPE_INDEX
  ∧ LiveLoop.getScopeNum 0%nat w = (Normal (scopeNum l), w).
Proof.
  intros w l. apply (proj2 (scope_is_never_global [New "alpha"]) 0%nat l).
  reflexivity.
Defined.

(** A loop after [prevEffect]: index -1, within the bounds, and the effect
    of that index. *)
Lemma effect_follows_index_witness :
  let w := run [New "alpha"; PrevEffect 0%nat] fresh in
  let l := moved (-1) (constructed "alpha" 0 (Some 2)) in
  effectData l = getEffect (effectNum l)
  ∧ (d <- LiveLoop.getEffectData 0%nat ;; n <- LiveLoop.getEffectNum 0%nat ;;
     ret (d, getEffect n)) w
    = (Normal (effectData l, effectData l), w).
Proof.
  intros w l. apply (effect_follows_index [New "alpha"; PrevEffect 0%nat] 0%nat l).
  reflexivity.
Defined.

Lemma effect_index_bounded_witness :
  let l := moved (-1) (constructed "alpha" 0 (Some 2)) in
  ∃ e, effectNum l = Int e
       ∧ - LiveLoop.numOfEffects < e < LiveLoop.numOfEffects.
Proof.
  intros l. apply (effect_index_bounded [New "alpha"; PrevEffect 0%nat] 0%nat l).
  - unfold LiveLoop.numOfEffects. cbn. lia.
  - reflexivity.
Defined.

(** A loop after [setVolume(5)]. *)
Lemma volume_stays_clamped_witness :
  let l := with_volume (LiveLoop.clamp 5%float) (constructed "alpha" 0 (Some 2)) in
  volume_value (volume l)
  ∧ (∀ v, is_nan v = true -> LiveLoop.clamp v = v).
Proof.
  intros l.
  apply (volume_stays_clamped [New "alpha"; SetVolume 0%nat 5%float] 0%nat l).
  reflexivity.
Defined.

(** [setVolume(0.5)] on the only loop, then a regeneration. *)
Lemma volume_shows_after_push_witness :
  let w := run [New "alpha"] fresh in
  let l := constructed "alpha" 0 (Some 2) in
  let shown := regenerated (with_volume (LiveLoop.clamp 0.5%float) l) in
  (LiveLoop.setVolume 0%nat 0.5%float ;; LiveLoop.generateAndPushRuby 0%nat) w
    = (Normal tt, compiled (stored 0%nat shown w))
  ∧ outputRuby shown
    = Some (declaration (tag l) (js_int_str (scopeNum l))
                        (Number_toString (LiveLoop.clamp 0.5%float))
                        (name (effectData l)) (js_str (rawRuby l)))
  ∧ (LiveLoop.setVolume 0%nat 0.5%float ;; LiveLoop.nextEffect 0%nat) w
    = (Normal tt,
       compiled (stored 0%nat (moved 1 (with_volume (LiveLoop.clamp 0.5%float) l)) w))
  ∧ volume (moved 1 (with_volume (LiveLoop.clamp 0.5%float) l))
    = LiveLoop.clamp 0.5%float.
Proof.
  intros w l.
  apply (volume_shows_after_push w 0%nat l 0.5%float).
  - reflexivity.
  - apply (proj1 (run_well_formed [New "alpha"])).
  - apply well_formed_valid_dead, run_well_formed.
Defined.

(** From index 0 of three effects, through index -1. *)
Lemma prevEffect_then_nextEffect_restores_witness :
  let w := run [New "alpha"] fresh in
  let l := constructed "alpha" 0 (Some 2) in
  ∃ w' l', (LiveLoop.prevEffect 0%nat ;; LiveLoop.nextEffect 0%nat) w = (Normal tt, w')
           ∧ heap w' !! 0%nat = Some l'
           ∧ effectNum l' = Int 0
           ∧ effectData l' = getEffect (Int 0)
           ∧ outputRuby l'
             = outputRuby (regenerated (with_effect (Int 0) (getEffect (Int 0)) l)).
Proof.
  intros w l.
  apply (prevEffect_then_nextEffect_restores w 0%nat l 0).
  - reflexivity.
  - apply (proj1 (run_well_formed [New "alpha"])).
  - apply well_formed_valid_dead, run_well_formed.
  - reflexivity.
  - unfold LiveLoop.numOfEffects. cbn. lia.
Defined.

(** From index 0 of three effects, through index 1. *)
Lemma nextEffect_then_prevEffect_restores_witness :
  let w := run [New "alpha"] fresh in
  ∃ w' l', (LiveLoop.nextEffect 0%nat ;; LiveLoop.prevEffect 0%nat) w = (Normal tt, w')
           ∧ heap w' !! 0%nat = Some l'
           ∧ effectNum l' = Int 0
           ∧ effectData l' = getEffect (Int 0).
Proof.
  intros w.
  apply (nextEffect_then_prevEffect_restores w 0%nat (constructed "alpha" 0 (Some 2)) 0).
  - reflexivity.
  - apply (proj1 (run_well_formed [New "alpha"])).
  - apply well_formed_valid_dead, run_well_formed.
  - reflexivity.
  - lia.
  - unfold LiveLoop.numOfEffects. cbn. lia.
Defined.

(** The second of two loops holds 3. *)
Lemma held_numbers_sound_witness :
  let w := run [New "alpha"; New "beta"] fresh in
  (2 <= 3 <= 127)
  ∧ (Some 3 ∉ freeScopeNums (coordinator w))
  ∧ (∀ r', r' ∈ activeLoops (coordinator w) ->
           chan_at (heap w) r' = Some 3 -> r' = 1%nat).
Proof.
  intros w. apply (held_numbers_sound [New "alpha"; New "beta"] 1%nat 3).
  - vm_compute. apply list_elem_of_lookup. by exists 1%nat.
  - reflexivity.
Defined.
